(** * Recipe indexer ([index_recipes.py]): model and verified properties

    The program is one linear batch pipeline: discover files, extract
    their text, build a preview, copy the file, append a record, and
    finally serialise the records as JSON.

    Python [str] values are modelled as lists of characters.  A character
    is a code point below 256 (Rocq's [ascii]), which covers ASCII and
    Latin-1; the classification of whitespace and the lower-casing below
    are Python's, restricted to that range.  Python [int] is [Z].

    Two parts of the model are finer.  The index file is treated on
    strings in full (sequences of code points, lone surrogates
    included) and on the UTF-8 bytes of the file.  And next to the run
    in which only the steps inside a [try] and the filesystem state
    decide the outcome ([index_recipes]), there is the run on a host
    where every step outside a [try] may raise
    ([index_recipes_on]). *)

From Stdlib Require Import List ZArith Lia Bool Ascii String.
From Stdlib Require Import DecimalString DecimalN Sorted.
Import ListNotations.
Local Open Scope Z_scope.

(* ================================================================== *)
(** * Part I: definitions *)
(* ================================================================== *)

(** ** Strings and the [str] methods the program calls *)

Definition str := list ascii.

(** A string literal of the source. *)
Definition lit (s : string) : str := list_ascii_of_string s.

Definition len (s : str) : Z := Z.of_nat (List.length s).

Definition code (c : ascii) : Z := Z.of_N (N_of_ascii c).

Definition space : ascii := " "%char.

(** [str.isspace] on one character, which is also what [\s] matches in a
    [str] pattern: TAB..CR, FS..US, SPACE, NEL and NBSP. *)
Definition is_space (c : ascii) : bool :=
  let n := code c in
  ((9 <=? n) && (n <=? 13)) || ((28 <=? n) && (n <=? 32))
  || (n =? 133) || (n =? 160).

(** [re.sub(r'\s+', ' ', text)]: every maximal run of whitespace becomes
    one space.  [in_run] records that the previous character was
    whitespace, so that the run has already been replaced. *)
Fixpoint sub_ws (in_run : bool) (text : str) : str :=
  match text with
  | [] => []
  | c :: rest =>
      if is_space c
      then if in_run then sub_ws true rest else space :: sub_ws true rest
      else c :: sub_ws false rest
  end.

Definition re_sub_ws (text : str) : str := sub_ws false text.

(** [str.lstrip()], [str.rstrip()] and [str.strip()]. *)
Fixpoint lstrip (s : str) : str :=
  match s with
  | [] => []
  | c :: rest => if is_space c then lstrip rest else s
  end.

Fixpoint rstrip (s : str) : str :=
  match s with
  | [] => []
  | c :: rest =>
      match rstrip rest with
      | [] => if is_space c then [] else [c]
      | kept => c :: kept
      end
  end.

Definition strip (s : str) : str := rstrip (lstrip s).

(** [s[:stop]]: a negative [stop] counts from the end, and the bounds are
    clipped to the string. *)
Definition slice_to (s : str) (stop : Z) : str :=
  if stop <? 0
  then firstn (Z.to_nat (len s + stop)) s
  else firstn (Z.to_nat stop) s.

(** [s.rfind(c)] for a one-character [c]: the index of its last
    occurrence. *)
Fixpoint rfind (c : ascii) (s : str) : option nat :=
  match s with
  | [] => None
  | x :: rest =>
      match rfind c rest with
      | Some i => Some (S i)
      | None => if Ascii.eqb x c then Some O else None
      end
  end.

(** [s.rsplit(sep, 1)] for a one-character separator: one split at the
    last separator, or the whole string when there is none. *)
Definition rsplit1 (sep : ascii) (s : str) : list str :=
  match rfind sep s with
  | None => [s]
  | Some i => [firstn i s; skipn (S i) s]
  end.

(** [s.replace(a, b)] for one-character [a] and [b]. *)
Definition replace (a b : ascii) (s : str) : str :=
  map (fun c => if Ascii.eqb c a then b else c) s.

(** ** [create_preview] *)

Definition ellipsis : str := lit "...".

(** The first line of [create_preview]. *)
Definition clean (text : str) : str := strip (re_sub_ws text).

Definition create_preview (text : str) (max_length : Z) : str :=
  let cleaned := clean text in
  if len cleaned <=? max_length
  then cleaned
  else hd [] (rsplit1 space (slice_to cleaned max_length)) ++ ellipsis.

Definition default_max_length : Z := 200.

(** *** Vocabulary for the claims about previews *)

(** What the specification calls collapsing and trimming: the words of
    the text (maximal runs of non-whitespace), joined by single spaces.
    [split_ws] is [str.split()] with [cur] the word being read. *)
Fixpoint split_ws (cur : str) (s : str) : list str :=
  match s with
  | [] => match cur with [] => [] | _ => [cur] end
  | c :: rest =>
      if is_space c
      then match cur with
           | [] => split_ws [] rest
           | _ => cur :: split_ws [] rest
           end
      else split_ws (cur ++ [c]) rest
  end.

Definition words (s : str) : list str := split_ws [] s.

Fixpoint join (sep : str) (ws : list str) : str :=
  match ws with
  | [] => []
  | [w] => w
  | w :: more => w ++ sep ++ join sep more
  end.

Definition collapse_and_trim (text : str) : str := join [space] (words text).

(** Every whitespace character is a space, and no space follows a
    space (a space may still end the text). *)
Fixpoint single_spaced (s : str) : bool :=
  match s with
  | [] => true
  | c :: rest =>
      (negb (is_space c)
       || (Ascii.eqb c space
           && match rest with [] => true | d :: _ => negb (is_space d) end))
      && single_spaced rest
  end.

Definition starts_with_word (s : str) : bool :=
  match s with [] => true | c :: _ => negb (is_space c) end.

(** A text is already cleaned when its only whitespace characters are
    single spaces strictly inside it. *)
Fixpoint collapsed (s : str) : bool :=
  match s with
  | [] => true
  | c :: rest =>
      (negb (is_space c)
       || (Ascii.eqb c space
           && match rest with [] => false | d :: _ => negb (is_space d) end))
      && collapsed rest
  end.

Definition is_cleaned (s : str) : bool := starts_with_word s && collapsed s.

(** The preview without its three-character suffix. *)
Definition preview_body (p : str) : str :=
  firstn (List.length p - List.length ellipsis)%nat p.

(** [body] stops in the middle of a word of [cleaned]: it is a proper
    prefix, its last character and the character after it are both
    non-whitespace. *)
Definition ends_mid_word (cleaned body : str) : Prop :=
  exists x y front rest,
    body = front ++ [x] /\ cleaned = body ++ y :: rest /\
    is_space x = false /\ is_space y = false.

(** ** More [str] and [pathlib] operations *)

Fixpoint str_eqb (a b : str) : bool :=
  match a, b with
  | [], [] => true
  | x :: a', y :: b' => Ascii.eqb x y && str_eqb a' b'
  | _, _ => false
  end.

(** [x in l] for a list of strings. *)
Definition str_in (x : str) (l : list str) : bool := existsb (str_eqb x) l.

(** [str.lower()], one character at a time: A..Z and the Latin-1 capitals
    (all of 0xC0..0xDE but the multiplication sign) move up by 32. *)
Definition lower_char (c : ascii) : ascii :=
  let n := code c in
  if ((65 <=? n) && (n <=? 90))
     || ((192 <=? n) && (n <=? 222) && negb (n =? 215))
  then ascii_of_N (Z.to_N (n + 32))
  else c.

Definition lower (s : str) : str := map lower_char s.

(** [PurePath.suffix], computed from the file name: the part from the
    last dot on, unless that dot starts or ends the name. *)
Definition suffix (name : str) : str :=
  match rfind "."%char name with
  | Some i =>
      if (0 <? Z.of_nat i) && (Z.of_nat i <? len name - 1)
      then skipn i name
      else []
  | None => []
  end.

(** [repr] of a natural number: its decimal digits. *)
Definition digits_of (n : N) : str :=
  lit (NilEmpty.string_of_uint (N.to_uint n)).

(** Left padding with zeros up to [width] characters. *)
Definition zero_pad (width : nat) (digits : str) : str :=
  repeat "0"%char (width - List.length digits) ++ digits.

(** [f"{idx:03d}"]: at least three characters, the sign first. *)
Definition format_03d (idx : Z) : str :=
  if idx <? 0
  then "-"%char :: zero_pad 2 (digits_of (Z.to_N (- idx)))
  else zero_pad 3 (digits_of (Z.to_N idx)).

(** ** Records, events and the monad of a run *)

Record recipe := {
  id : Z;
  filename : str;
  file_path : str;
  type : str;
  content : str;
  preview : str;
  size : Z
}.

(** The lines the program prints, one constructor per [print] call. *)
Inductive message :=
| MsgPdfLibraryMissing
| MsgPdfError (name : str)
| MsgHtmlLibraryMissing
| MsgHtmlError (name : str)
| MsgTextError (name : str)
| MsgNoDirectory (recipes_dir : str)
| MsgFound (count : Z)
| MsgProcessing (idx total : Z) (name : str)
| MsgNoText (name : str)
| MsgCopyError
| MsgSummary (count total_size : Z)
| MsgUsage
| MsgBanner (recipes_dir output_dir output_file : str).

(** What a run does to the outside world.  Paths are relative to the
    output directory: [Mkdir d] creates [output_dir/d]; [Copy src d n]
    is the call [shutil.copy2(src, output_dir/d/n)] returning without an
    error (where the file then lies is [stored_at] below);
    [WriteIndex n rs] writes [output_dir/n] in full; [BreakIndex n] is
    [output_dir/n] opened for writing, hence emptied, and left without
    the whole text because the dump raised. *)
Inductive event :=
| Print (line : message)
| Mkdir (dir : str)
| Copy (source : str) (dir name : str)
| WriteIndex (name : str) (recipes : list recipe)
| BreakIndex (name : str).

Inductive exn :=
| FileNotFoundError
| FileExistsError
| NotADirectoryError
| PermissionError
| OSError
| UnicodeEncodeError.

(** A computation performs events and then returns a value or raises. *)
Definition run (A : Type) : Type := list event * (exn + A).

Definition ret {A} (a : A) : run A := ([], inr a).

Definition bind {A B} (c : run A) (k : A -> run B) : run B :=
  match c with
  | (evs, inl e) => (evs, inl e)
  | (evs, inr a) => let '(evs', r) := k a in (evs ++ evs', r)
  end.

Definition emit (e : event) : run unit := ([e], inr tt).

Definition raise {A} (e : exn) : run A := ([], inl e).

Notation "x <- c ;; k" := (bind c (fun x => k))
  (at level 61, c at next level, right associativity).
Notation "c ;; k" := (bind c (fun _ => k))
  (at level 61, right associativity).

Definition events {A} (c : run A) : list event := fst c.

Definition result {A} (c : run A) : exn + A := snd c.

(** ** The filesystem as one run sees it *)

(** What a format-specific reader gets out of a file: the library is
    missing ([ImportError]), the read fails (any other [Exception]), or
    it yields its raw result. *)
Inductive reading (A : Type) :=
| LibraryMissing
| ReadFails
| Reads (a : A).
Arguments LibraryMissing {A}.
Arguments ReadFails {A}.
Arguments Reads {A} a.

(** One path yielded by [rglob('*')].  The file collection is static
    during the run, so a path for which [is_file()] holds has a size. *)
Record entry := {
  path : str;                       (* the path itself *)
  name : str;                       (* [filepath.name] *)
  is_file : bool;                   (* [filepath.is_file()] *)
  pdf_pages : reading (list str);   (* [extract_text()] of each page *)
  html_text : reading str;          (* [get_text] once scripts and styles are removed *)
  file_text : reading str;          (* [f.read()] with lenient decoding *)
  copy_ok : bool;                   (* [shutil.copy2] to the copy directory succeeds *)
  st_size : Z                       (* [filepath.stat().st_size] *)
}.

Inductive path_state := Missing | RegularFile | Directory.

Record world := {
  root_exists : bool;               (* [recipes_path.exists()] *)
  listing : list entry;             (* [list(recipes_path.rglob('*'))], in traversal order *)
  output_dir_state : path_state;    (* [output_path] before the run *)
  copy_dir_state : path_state;      (* [output_path / 'recipes'] before the run *)
  output_dir_writable : bool;       (* an entry can be created in [output_path] *)
  index_writable : bool             (* [open(index_path, 'w')] and the dump succeed *)
}.

(** ** The extractors *)

Definition newline : ascii := "010"%char.

Definition nonempty (s : str) : bool :=
  match s with [] => false | _ => true end.

Definition extract_pdf_text (f : entry) : run str :=
  match pdf_pages f with
  | Reads pages => ret (join [newline] (filter nonempty pages))
  | LibraryMissing => emit (Print MsgPdfLibraryMissing) ;; ret []
  | ReadFails => emit (Print (MsgPdfError (path f))) ;; ret []
  end.

Definition extract_html_text (f : entry) : run str :=
  match html_text f with
  | Reads text => ret text
  | LibraryMissing => emit (Print MsgHtmlLibraryMissing) ;; ret []
  | ReadFails => emit (Print (MsgHtmlError (path f))) ;; ret []
  end.

(** No import here: whatever goes wrong is an [Exception]. *)
Definition extract_text_file (f : entry) : run str :=
  match file_text f with
  | Reads text => ret text
  | LibraryMissing | ReadFails => emit (Print (MsgTextError (path f))) ;; ret []
  end.

(** ** [index_recipes] *)

Definition pdf_ext : list str := [lit ".pdf"].
Definition html_ext : list str := [lit ".html"; lit ".htm"].
Definition text_ext : list str := [lit ".txt"; lit ".md"].

(** The filter of the comprehension that builds [recipe_files], where
    [is_file()] answers; [discover] below has the call that raises. *)
Definition is_recipe_file (f : entry) : bool :=
  is_file f && str_in (lower (suffix (name f))) (pdf_ext ++ html_ext ++ text_ext).

Definition recipe_files (w : world) : list entry :=
  filter is_recipe_file (listing w).

Definition copy_dir_name : str := lit "recipes".

(** [recipes_copy_dir.mkdir(exist_ok=True)], without [parents]: a missing
    or non-directory parent raises; an existing directory is accepted; a
    file in the way raises. *)
Definition mkdir_exist_ok (w : world) : run unit :=
  match output_dir_state w with
  | Missing => raise FileNotFoundError
  | RegularFile => raise NotADirectoryError
  | Directory =>
      match copy_dir_state w with
      | Directory => ret tt
      | RegularFile => raise FileExistsError
      | Missing =>
          if output_dir_writable w
          then emit (Mkdir copy_dir_name)
          else raise PermissionError
      end
  end.

Definition safe_filename (idx : Z) (f : entry) : str :=
  replace space "_"%char (format_03d idx ++ lit "_" ++ name f).

(** The branch on the extension: the extracted text and the type. *)
Definition extract (f : entry) : run (str * str) :=
  let ext := lower (suffix (name f)) in
  if str_in ext pdf_ext then
    text <- extract_pdf_text f ;; ret (text, lit "pdf")
  else if str_in ext html_ext then
    text <- extract_html_text f ;; ret (text, lit "html")
  else
    text <- extract_text_file f ;; ret (text, lit "text").

(** One iteration of the loop: the new value of [recipes]. *)
Definition process_file (total idx : Z) (f : entry) (recipes : list recipe)
  : run (list recipe) :=
  emit (Print (MsgProcessing idx total (name f))) ;;
  extracted <- extract f ;;
  let '(text, file_type) := extracted in
  (if nonempty text then ret tt else emit (Print (MsgNoText (name f)))) ;;
  if copy_ok f then
    emit (Copy (path f) copy_dir_name (safe_filename idx f)) ;;
    let web_path := lit "recipes/" ++ safe_filename idx f in
    ret (recipes ++ [ {| id := idx;
                         filename := name f;
                         file_path := web_path;
                         type := file_type;
                         content := text;
                         preview := create_preview text default_max_length;
                         size := st_size f |} ])
  else
    emit (Print MsgCopyError) ;; ret recipes.

(** [for idx, filepath in enumerate(recipe_files, 1)], from [idx] on. *)
Fixpoint process_files (total idx : Z) (files : list entry)
  (recipes : list recipe) : run (list recipe) :=
  match files with
  | [] => ret recipes
  | f :: rest =>
      recipes' <- process_file total idx f recipes ;;
      process_files total (idx + 1) rest recipes'
  end.

(** [open(index_path, 'w')] and [json.dump], taken as one step that
    writes the whole index or raises before the file is touched; the
    dump that fails midway is in [write_index_on]. *)
Definition write_index (w : world) (output_file : str)
  (recipes : list recipe) : run unit :=
  if index_writable w
  then emit (WriteIndex output_file recipes)
  else raise OSError.

Definition sum_sizes (recipes : list recipe) : Z :=
  fold_right (fun r acc => size r + acc) 0 recipes.

Definition index_recipes (recipes_dir output_dir output_file : str)
  (w : world) : run unit :=
  if negb (root_exists w) then
    emit (Print (MsgNoDirectory recipes_dir))
  else
    mkdir_exist_ok w ;;
    let files := recipe_files w in
    let total := Z.of_nat (List.length files) in
    emit (Print (MsgFound total)) ;;
    recipes <- process_files total 1 files [] ;;
    write_index w output_file recipes ;;
    emit (Print (MsgSummary (Z.of_nat (List.length recipes)) (sum_sizes recipes))).


(** *** Vocabulary for the claims about runs *)

(** [enumerate(l, start)]. *)
Fixpoint enumerate {A} (start : Z) (l : list A) : list (Z * A) :=
  match l with
  | [] => []
  | a :: rest => (start, a) :: enumerate (start + 1) rest
  end.

(** The text and type the extractor branch yields, without its prints. *)
Definition extracted (f : entry) : str * str :=
  match result (extract f) with
  | inr p => p
  | inl _ => ([], [])
  end.

(** The record appended for file [f] at index [idx] when its copy
    succeeds. *)
Definition record_of (p : Z * entry) : recipe :=
  let '(idx, f) := p in
  {| id := idx;
     filename := name f;
     file_path := lit "recipes/" ++ safe_filename idx f;
     type := snd (extracted f);
     content := fst (extracted f);
     preview := create_preview (fst (extracted f)) default_max_length;
     size := st_size f |}.

Definition copied (p : Z * entry) : bool := copy_ok (snd p).

(** The index a run wrote, if it wrote one. *)
Fixpoint written_index (evs : list event) : option (list recipe) :=
  match evs with
  | [] => None
  | WriteIndex _ rs :: _ => Some rs
  | _ :: rest => written_index rest
  end.

(** [1, 2, ..., n]. *)
Definition one_to (n : nat) : list Z := map Z.of_nat (seq 1 n).

(** The records the loop of [index_recipes] collects, read off the
    discovered files: one per file whose copy succeeds. *)
Definition collected (w : world) : list recipe :=
  map record_of (filter copied (enumerate 1 (recipe_files w))).

(** No index is written by these events. *)
Definition no_write (evs : list event) : Prop :=
  forall n rs, ~ In (WriteIndex n rs) evs.

(** Only messages are printed by these events. *)
Definition only_prints (evs : list event) : Prop :=
  forall e, In e evs -> exists m, e = Print m.

(** A decimal digit. *)
Definition is_digit (c : ascii) : bool := (48 <=? code c) && (code c <=? 57).

(** The number a string of decimal digits denotes. *)
Definition decimal_value (s : str) : option N :=
  option_map N.of_uint (NilEmpty.uint_of_string (string_of_list_ascii s)).

Definition failed {A} (r : reading A) : bool :=
  match r with Reads _ => false | _ => true end.

(** The reader chosen for the file's extension fails. *)
Definition extraction_fails (f : entry) : bool :=
  let ext := lower (suffix (name f)) in
  if str_in ext pdf_ext then failed (pdf_pages f)
  else if str_in ext html_ext then failed (html_text f)
  else failed (file_text f).

(** The allow-list of the discovery filter, as the specification lists
    it. *)
Definition recognized_extensions : list str :=
  [lit ".pdf"; lit ".html"; lit ".htm"; lit ".txt"; lit ".md"].

(** Equality of two strings up to the case of their letters. *)
Definition same_ignoring_case (a b : str) : Prop := lower a = lower b.

(** The copy subdirectory is there after [mkdir]: the output directory
    exists, and the subdirectory exists already or can be created. *)
Definition copy_dir_available (w : world) : Prop :=
  output_dir_state w = Directory /\
  (copy_dir_state w = Directory \/
   (copy_dir_state w = Missing /\ output_dir_writable w = true)).

(** ** The index file: [json.dump]

    The values the program serialises are lists, dictionaries with string
    keys, strings and integers.  This is the encoder on the strings of
    the Latin-1 model; the encoder on strings in full, the bytes of the
    file and the decoder follow below. *)

#[local] Unset Elimination Schemes.
Inductive json :=
| JNull
| JBool (b : bool)
| JInt (n : Z)
| JStr (s : str)
| JList (items : list json)
| JDict (pairs : list (str * json)).
#[local] Set Elimination Schemes.

Definition quote : ascii := "034"%char.
Definition backslash : ascii := "092"%char.

(** *** Encoder ([ensure_ascii=False], [indent=2]) *)

Definition hex_digit (n : Z) : ascii :=
  nth (Z.to_nat n) (lit "0123456789abcdef") "0"%char.

(** The replacement of one character inside a string: the quote, the
    backslash and the characters below 0x20 are escaped, the named ones
    by their letter and the others as [\u00xx]. *)
Definition escape_char (c : ascii) : str :=
  if Ascii.eqb c quote then [backslash; quote]
  else if Ascii.eqb c backslash then [backslash; backslash]
  else if code c =? 10 then [backslash; "n"%char]
  else if code c =? 13 then [backslash; "r"%char]
  else if code c =? 9 then [backslash; "t"%char]
  else if code c =? 8 then [backslash; "b"%char]
  else if code c =? 12 then [backslash; "f"%char]
  else if code c <? 32 then
    [backslash; "u"%char; "0"%char; "0"%char;
     hex_digit (code c / 16); hex_digit (code c mod 16)]
  else [c].

Definition escape (s : str) : str := flat_map escape_char s.

Definition encode_str (s : str) : str := quote :: escape s ++ [quote].

(** [int.__repr__]. *)
Definition repr_int (n : Z) : str :=
  if n <? 0 then "-"%char :: digits_of (Z.to_N (- n)) else digits_of (Z.to_N n).

Definition newline_indent (level : nat) : str :=
  newline :: repeat space (2 * level).

Fixpoint encode (level : nat) (v : json) : str :=
  match v with
  | JNull => lit "null"
  | JBool true => lit "true"
  | JBool false => lit "false"
  | JInt n => repr_int n
  | JStr s => encode_str s
  | JList [] => lit "[]"
  | JList items =>
      lit "[" ++ newline_indent (S level)
      ++ join (lit "," ++ newline_indent (S level))
              (map (encode (S level)) items)
      ++ newline_indent level ++ lit "]"
  | JDict [] => lit "{}"
  | JDict pairs =>
      lit "{" ++ newline_indent (S level)
      ++ join (lit "," ++ newline_indent (S level))
              (map (fun p => encode_str (fst p) ++ lit ": "
                             ++ encode (S level) (snd p)) pairs)
      ++ newline_indent level ++ lit "}"
  end.

Definition dumps (v : json) : str := encode 0 v.

(** *** The index as JSON *)

(** The dictionary literal of the loop, in the order of its keys. *)
Definition recipe_json (r : recipe) : json :=
  JDict [(lit "id", JInt (id r));
         (lit "filename", JStr (filename r));
         (lit "file_path", JStr (file_path r));
         (lit "type", JStr (type r));
         (lit "content", JStr (content r));
         (lit "preview", JStr (preview r));
         (lit "size", JInt (size r))].

(** The text [json.dump(recipes, f, ensure_ascii=False, indent=2)]
    writes to the index file. *)
Definition index_text (recipes : list recipe) : str :=
  dumps (JList (map recipe_json recipes)).

(** ** Strings in full and the bytes of the index file

    The strings of a record come from file names and file contents and
    are not bound to Latin-1: a Python [str] is a sequence of code
    points, and a file name byte that is not UTF-8 is decoded to a lone
    surrogate (U+DC80 to U+DCFF), a code point like any other until the
    string is written.  The index file is opened with
    [encoding='utf-8'], so what is on disk is the UTF-8 encoding of the
    text [json.dump] produces, and a lone surrogate cannot be
    encoded. *)

(** A Python [str] in full: its code points. *)
Definition text := list N.

(** The code point of a character, and a Latin-1 string as text. *)
Definition chr (c : ascii) : N := N_of_ascii c.

Definition wide (s : str) : text := map chr s.

Definition wlit (s : string) : text := wide (lit s).

(** The characters of a text of code points below 256. *)
Definition narrow (s : text) : str := map ascii_of_N s.

Fixpoint text_eqb (a b : text) : bool :=
  match a, b with
  | [], [] => true
  | x :: a', y :: b' => N.eqb x y && text_eqb a' b'
  | _, _ => false
  end.

(** A record with its strings in full. *)
Record wide_recipe := {
  wide_id : Z;
  wide_filename : text;
  wide_file_path : text;
  wide_type : text;
  wide_content : text;
  wide_preview : text;
  wide_size : Z
}.

(** A record of the Latin-1 model, as such a record. *)
Definition widen (r : recipe) : wide_recipe :=
  {| wide_id := id r;
     wide_filename := wide (filename r);
     wide_file_path := wide (file_path r);
     wide_type := wide (type r);
     wide_content := wide (content r);
     wide_preview := wide (preview r);
     wide_size := size r |}.

(** *** The UTF-8 codec of the text file *)

(** U+D800 to U+DFFF. *)
Definition is_surrogate (c : N) : bool := (55296 <=? c)%N && (c <=? 57343)%N.

(** A code point UTF-8 can encode: any up to U+10FFFF but a surrogate. *)
Definition scalar_value (c : N) : bool :=
  negb (is_surrogate c) && (c <? 1114112)%N.

Definition byte (n : N) : ascii := ascii_of_N n.

(** The bytes of one code point; [None] is [UnicodeEncodeError]. *)
Definition utf8_char (c : N) : option (list ascii) :=
  if (c <? 128)%N then Some [byte c]
  else if (c <? 2048)%N then
    Some [byte (192 + c / 64); byte (128 + c mod 64)]
  else if is_surrogate c then None
  else if (c <? 65536)%N then
    Some [byte (224 + c / 4096); byte (128 + (c / 64) mod 64);
          byte (128 + c mod 64)]
  else if (c <? 1114112)%N then
    Some [byte (240 + c / 262144); byte (128 + (c / 4096) mod 64);
          byte (128 + (c / 64) mod 64); byte (128 + c mod 64)]
  else None.

Fixpoint utf8_encode (s : text) : option (list ascii) :=
  match s with
  | [] => Some []
  | c :: rest =>
      match utf8_char c, utf8_encode rest with
      | Some bs, Some more => Some (bs ++ more)
      | _, _ => None
      end
  end.

(** The six low bits of a continuation byte. *)
Definition continuation (b : ascii) : option N :=
  let n := N_of_ascii b in
  if (128 <=? n)%N && (n <? 192)%N then Some (n - 128)%N else None.

(** The strict decoder: an overlong form, a surrogate, a value above
    U+10FFFF, a stray or a missing continuation byte are errors. *)
Fixpoint utf8_decode (bs : list ascii) : option text :=
  match bs with
  | [] => Some []
  | b0 :: r0 =>
      let n0 := N_of_ascii b0 in
      if (n0 <? 128)%N then option_map (cons n0) (utf8_decode r0)
      else if (n0 <? 192)%N then None
      else if (n0 <? 224)%N then
        match r0 with
        | b1 :: r1 =>
            match continuation b1 with
            | Some x1 =>
                let c := ((n0 - 192) * 64 + x1)%N in
                if (c <? 128)%N then None
                else option_map (cons c) (utf8_decode r1)
            | None => None
            end
        | _ => None
        end
      else if (n0 <? 240)%N then
        match r0 with
        | b1 :: b2 :: r2 =>
            match continuation b1, continuation b2 with
            | Some x1, Some x2 =>
                let c := (((n0 - 224) * 64 + x1) * 64 + x2)%N in
                if (c <? 2048)%N || is_surrogate c then None
                else option_map (cons c) (utf8_decode r2)
            | _, _ => None
            end
        | _ => None
        end
      else if (n0 <? 248)%N then
        match r0 with
        | b1 :: b2 :: b3 :: r3 =>
            match continuation b1, continuation b2, continuation b3 with
            | Some x1, Some x2, Some x3 =>
                let c := ((((n0 - 240) * 64 + x1) * 64 + x2) * 64 + x3)%N in
                if (c <? 65536)%N || (1114112 <=? c)%N then None
                else option_map (cons c) (utf8_decode r3)
            | _, _, _ => None
            end
        | _ => None
        end
      else None
  end.

(** Writing a text to a file opened with [encoding='utf-8']: the bytes
    the file holds once the whole text is written. *)
Definition write_text (s : text) : exn + list ascii :=
  match utf8_encode s with
  | Some bs => inr bs
  | None => inl UnicodeEncodeError
  end.

(** *** [json.dump] on strings in full *)

#[local] Unset Elimination Schemes.
Inductive value :=
| VNull
| VBool (b : bool)
| VInt (n : Z)
| VStr (s : text)
| VList (items : list value)
| VDict (pairs : list (text * value)).
#[local] Set Elimination Schemes.

(** The replacement of one code point inside a string: as [escape_char]
    below 256; no other code point is escaped under
    [ensure_ascii=False]. *)
Definition escape_code (c : N) : text :=
  if (c <? 256)%N then wide (escape_char (ascii_of_N c)) else [c].

Definition encode_text (s : text) : text :=
  chr quote :: flat_map escape_code s ++ [chr quote].

Fixpoint join_text (sep : text) (ws : list text) : text :=
  match ws with
  | [] => []
  | [w] => w
  | w :: more => w ++ sep ++ join_text sep more
  end.

Fixpoint encode_value (level : nat) (v : value) : text :=
  match v with
  | VNull => wlit "null"
  | VBool true => wlit "true"
  | VBool false => wlit "false"
  | VInt n => wide (repr_int n)
  | VStr s => encode_text s
  | VList [] => wlit "[]"
  | VList items =>
      wlit "[" ++ wide (newline_indent (S level))
      ++ join_text (wlit "," ++ wide (newline_indent (S level)))
                   (map (encode_value (S level)) items)
      ++ wide (newline_indent level) ++ wlit "]"
  | VDict [] => wlit "{}"
  | VDict pairs =>
      wlit "{" ++ wide (newline_indent (S level))
      ++ join_text (wlit "," ++ wide (newline_indent (S level)))
                   (map (fun p => encode_text (fst p) ++ wlit ": "
                                  ++ encode_value (S level) (snd p)) pairs)
      ++ wide (newline_indent level) ++ wlit "}"
  end.

(** The dictionary literal of the loop, in the order of its keys. *)
Definition recipe_value (r : wide_recipe) : value :=
  VDict [(wlit "id", VInt (wide_id r));
         (wlit "filename", VStr (wide_filename r));
         (wlit "file_path", VStr (wide_file_path r));
         (wlit "type", VStr (wide_type r));
         (wlit "content", VStr (wide_content r));
         (wlit "preview", VStr (wide_preview r));
         (wlit "size", VInt (wide_size r))].

(** The text [json.dump(recipes, f, ensure_ascii=False, indent=2)]
    produces. *)
Definition dumped (recipes : list wide_recipe) : text :=
  encode_value 0 (VList (map recipe_value recipes)).

(** Lines 146 and 147 on the file itself: the bytes of the index file
    when the dump completes, or the error that stops it. *)
Definition write_index_file (recipes : list wide_recipe)
  : exn + list ascii :=
  write_text (dumped recipes).

(** *** Reading the index back: [json.load]

    The decoder reads lists, dictionaries with string keys, strings,
    integers, [null] and the two booleans; a number with a fraction or
    an exponent, [NaN] and the infinities are outside this model and
    make it fail. *)

Definition is_json_ws (c : N) : bool :=
  (c =? 32)%N || (c =? 9)%N || (c =? 10)%N || (c =? 13)%N.

Fixpoint skip_ws (s : text) : text :=
  match s with
  | [] => []
  | c :: rest => if is_json_ws c then skip_ws rest else s
  end.

Definition hex_value (c : N) : option N :=
  if (48 <=? c)%N && (c <=? 57)%N then Some (c - 48)%N
  else if (97 <=? c)%N && (c <=? 102)%N then Some (c - 87)%N
  else if (65 <=? c)%N && (c <=? 70)%N then Some (c - 55)%N
  else None.

(** The four hexadecimal digits of a [\u] escape. *)
Definition decode_uXXXX (h1 h2 h3 h4 : N) : option N :=
  match hex_value h1, hex_value h2, hex_value h3, hex_value h4 with
  | Some a, Some b, Some c, Some d => Some (((a * 16 + b) * 16 + c) * 16 + d)%N
  | _, _, _, _ => None
  end.

Definition is_high_surrogate (c : N) : bool :=
  (55296 <=? c)%N && (c <=? 56319)%N.

Definition is_low_surrogate (c : N) : bool :=
  (56320 <=? c)%N && (c <=? 57343)%N.

Definition join_surrogates (hi lo : N) : N :=
  (65536 + (hi - 55296) * 1024 + (lo - 56320))%N.

(** The character an escape letter stands for. *)
Definition unescape (e : N) : option N :=
  if (e =? chr quote)%N then Some (chr quote)
  else if (e =? chr backslash)%N then Some (chr backslash)
  else if (e =? chr "/")%N then Some (chr "/")
  else if (e =? chr "b")%N then Some 8%N
  else if (e =? chr "f")%N then Some 12%N
  else if (e =? chr "n")%N then Some 10%N
  else if (e =? chr "r")%N then Some 13%N
  else if (e =? chr "t")%N then Some 9%N
  else None.

(** [scanstring], from just after the opening quote: the string read
    and what follows its closing quote.  A raw control character is an
    error (strict mode); a [\u] escape of a high surrogate followed by
    one of a low surrogate is read as the one code point they encode. *)
Fixpoint scanstring (s : text) : option (text * text) :=
  match s with
  | [] => None
  | c :: rest =>
      if (c =? chr quote)%N then Some ([], rest)
      else if (c =? chr backslash)%N then
        match rest with
        | [] => None
        | e :: rest1 =>
            if (e =? chr "u")%N then
              match rest1 with
              | h1 :: h2 :: h3 :: h4 :: rest2 =>
                  match decode_uXXXX h1 h2 h3 h4 with
                  | Some hi =>
                      let single :=
                        match scanstring rest2 with
                        | Some (t, r) => Some (hi :: t, r)
                        | None => None
                        end in
                      if is_high_surrogate hi then
                        match rest2 with
                        | b :: u :: l1 :: l2 :: l3 :: l4 :: rest3 =>
                            if (b =? chr backslash)%N && (u =? chr "u")%N then
                              match decode_uXXXX l1 l2 l3 l4 with
                              | Some lo =>
                                  if is_low_surrogate lo then
                                    match scanstring rest3 with
                                    | Some (t, r) =>
                                        Some (join_surrogates hi lo :: t, r)
                                    | None => None
                                    end
                                  else single
                              | None => None
                              end
                            else single
                        | _ => single
                        end
                      else single
                  | None => None
                  end
              | _ => None
              end
            else
              match unescape e, scanstring rest1 with
              | Some ch, Some (t, r) => Some (ch :: t, r)
              | _, _ => None
              end
        end
      else if (c <? 32)%N then None
      else
        match scanstring rest with
        | Some (t, r) => Some (c :: t, r)
        | None => None
        end
  end.

Definition is_digit_code (c : N) : bool := (48 <=? c)%N && (c <=? 57)%N.

Fixpoint span_digits (s : text) : text * text :=
  match s with
  | [] => ([], [])
  | c :: rest =>
      if is_digit_code c
      then let '(ds, r) := span_digits rest in (c :: ds, r)
      else ([], s)
  end.

Definition starts_fraction (s : text) : bool :=
  match s with
  | c :: _ => (c =? chr ".")%N || (c =? chr "e")%N || (c =? chr "E")%N
  | [] => false
  end.

(** The number pattern, for integers: an optional minus sign, then a
    single zero or a digit string that does not start with zero. *)
Definition parse_int (s : text) : option (Z * text) :=
  let '(negative, s1) :=
    match s with
    | c :: r => if (c =? chr "-")%N then (true, r) else (false, s)
    | [] => (false, s)
    end in
  let '(ds, rest) := span_digits s1 in
  match ds with
  | [] => None
  | d :: more =>
      if (d =? chr "0")%N && negb (text_eqb more []) then None
      else if starts_fraction rest then None
      else
        match decimal_value (narrow ds) with
        | Some n => Some (if negative then - Z.of_N n else Z.of_N n, rest)
        | None => None
        end
  end.

Fixpoint strip_prefix (p s : text) : option text :=
  match p, s with
  | [], _ => Some s
  | x :: p', y :: s' => if (x =? y)%N then strip_prefix p' s' else None
  | _ :: _, [] => None
  end.

(** [dict(pairs)]: a repeated key keeps its first position and takes
    the last value. *)
Fixpoint dict_set (k : text) (v : value) (d : list (text * value))
  : list (text * value) :=
  match d with
  | [] => [(k, v)]
  | (k', v') :: rest =>
      if text_eqb k k' then (k', v) :: rest else (k', v') :: dict_set k v rest
  end.

Definition dict_of_pairs (pairs : list (text * value)) : list (text * value) :=
  fold_left (fun d p => dict_set (fst p) (snd p) d) pairs [].

(** The scanner.  [parse_value] reads one value; [parse_items] reads the
    elements of a non-empty array from the start of an element;
    [parse_pairs] reads the members of a non-empty object from just
    after the opening quote of a key.  [fuel] bounds the nesting of
    calls. *)
Fixpoint parse_value (fuel : nat) (s : text) : option (value * text) :=
  match fuel with
  | O => None
  | S fuel' =>
      match s with
      | [] => None
      | c :: rest =>
          if (c =? chr quote)%N then
            match scanstring rest with
            | Some (t, r) => Some (VStr t, r)
            | None => None
            end
          else if (c =? chr "{")%N then
            match skip_ws rest with
            | [] => None
            | d :: r =>
                if (d =? chr "}")%N then Some (VDict [], r)
                else if (d =? chr quote)%N then
                  match parse_pairs fuel' r with
                  | Some (ps, r') => Some (VDict (dict_of_pairs ps), r')
                  | None => None
                  end
                else None
            end
          else if (c =? chr "[")%N then
            match skip_ws rest with
            | [] => None
            | d :: r =>
                if (d =? chr "]")%N then Some (VList [], r)
                else
                  match parse_items fuel' (d :: r) with
                  | Some (vs, r') => Some (VList vs, r')
                  | None => None
                  end
            end
          else if (c =? chr "n")%N then
            option_map (pair VNull) (strip_prefix (wlit "ull") rest)
          else if (c =? chr "t")%N then
            option_map (pair (VBool true)) (strip_prefix (wlit "rue") rest)
          else if (c =? chr "f")%N then
            option_map (pair (VBool false)) (strip_prefix (wlit "alse") rest)
          else
            match parse_int s with
            | Some (n, r) => Some (VInt n, r)
            | None => None
            end
      end
  end
with parse_items (fuel : nat) (s : text) : option (list value * text) :=
  match fuel with
  | O => None
  | S fuel' =>
      match parse_value fuel' s with
      | Some (v, r) =>
          match skip_ws r with
          | [] => None
          | d :: r1 =>
              if (d =? chr "]")%N then Some ([v], r1)
              else if (d =? chr ",")%N then
                match parse_items fuel' (skip_ws r1) with
                | Some (vs, r2) => Some (v :: vs, r2)
                | None => None
                end
              else None
          end
      | None => None
      end
  end
with parse_pairs (fuel : nat) (s : text) : option (list (text * value) * text) :=
  match fuel with
  | O => None
  | S fuel' =>
      match scanstring s with
      | Some (key, r) =>
          match skip_ws r with
          | [] => None
          | colon :: r1 =>
              if (colon =? chr ":")%N then
                match parse_value fuel' (skip_ws r1) with
                | Some (v, r2) =>
                    match skip_ws r2 with
                    | [] => None
                    | d :: r3 =>
                        if (d =? chr "}")%N then Some ([(key, v)], r3)
                        else if (d =? chr ",")%N then
                          match skip_ws r3 with
                          | [] => None
                          | q :: r4 =>
                              if (q =? chr quote)%N then
                                match parse_pairs fuel' r4 with
                                | Some (ps, r5) => Some ((key, v) :: ps, r5)
                                | None => None
                                end
                              else None
                          end
                        else None
                    end
                | None => None
                end
              else None
          end
      | None => None
      end
  end.

(** [json.loads]: one value, with whitespace allowed around it and
    nothing else after it. *)
Definition loads (s : text) : option value :=
  match parse_value (List.length s) (skip_ws s) with
  | Some (v, r) => match skip_ws r with [] => Some v | _ => None end
  | None => None
  end.

(** [d[key]]. *)
Fixpoint lookup (key : text) (d : list (text * value)) : option value :=
  match d with
  | [] => None
  | (k, v) :: rest => if text_eqb key k then Some v else lookup key rest
  end.

Definition get_int (key : text) (d : list (text * value)) : option Z :=
  match lookup key d with Some (VInt n) => Some n | _ => None end.

Definition get_str (key : text) (d : list (text * value)) : option text :=
  match lookup key d with Some (VStr s) => Some s | _ => None end.

(** The record a parsed object stands for, field by field. *)
Definition recipe_of_value (v : value) : option wide_recipe :=
  match v with
  | VDict d =>
      match get_int (wlit "id") d, get_str (wlit "filename") d,
            get_str (wlit "file_path") d, get_str (wlit "type") d,
            get_str (wlit "content") d, get_str (wlit "preview") d,
            get_int (wlit "size") d with
      | Some i, Some fn, Some fp, Some ty, Some co, Some pr, Some sz =>
          Some {| wide_id := i; wide_filename := fn; wide_file_path := fp;
                  wide_type := ty; wide_content := co; wide_preview := pr;
                  wide_size := sz |}
      | _, _, _, _, _, _, _ => None
      end
  | _ => None
  end.

Fixpoint all_some {A} (l : list (option A)) : option (list A) :=
  match l with
  | [] => Some []
  | Some a :: rest => option_map (cons a) (all_some rest)
  | None :: _ => None
  end.

(** Reading the index file back: the bytes decoded as UTF-8,
    [json.load], then the records. *)
Definition read_index (file : list ascii) : option (list wide_recipe) :=
  match utf8_decode file with
  | Some s =>
      match loads s with
      | Some (VList items) => all_some (map recipe_of_value items)
      | _ => None
      end
  | None => None
  end.

(** *** Vocabulary for the round trip *)

(** Every code point of the string can be written to the file. *)
Definition encodable_text (s : text) : bool := forallb scalar_value s.

Definition encodable_recipe (r : wide_recipe) : bool :=
  encodable_text (wide_filename r) && encodable_text (wide_file_path r)
  && encodable_text (wide_type r) && encodable_text (wide_content r)
  && encodable_text (wide_preview r).

Definition encodable (recipes : list wide_recipe) : bool :=
  forallb encodable_recipe recipes.

(** What may follow a value in the text the encoder writes. *)
Definition delimited (rest : text) : Prop :=
  exists r, rest = chr "," :: r \/ rest = chr newline :: r.

(** The values of a record's fields: strings and integers. *)
Definition scalar (v : value) : bool :=
  match v with
  | VStr _ | VInt _ => true
  | _ => false
  end.

(** One member of an object, and the members after the first, each led
    by its separator, as the encoder lays them out at [level]. *)
Definition member_text (level : nat) (p : text * value) : text :=
  encode_text (fst p) ++ wlit ": " ++ encode_value level (snd p).

Definition more_members (level : nat) (ps : list (text * value)) : text :=
  flat_map (fun p => wlit "," ++ wide (newline_indent level)
                     ++ member_text level p) ps.

(** The records after the first, each led by its separator. *)
Definition more_records (rs : list wide_recipe) : text :=
  flat_map (fun r => wlit "," ++ wide (newline_indent 1)
                     ++ encode_value 1 (recipe_value r)) rs.

(** A record whose file name holds a lone surrogate, as the name
    [soup\x80.txt] is decoded. *)
Definition undecodable_name : wide_recipe :=
  {| wide_id := 1;
     wide_filename := wlit "soup" ++ [56448%N] ++ wlit ".txt";
     wide_file_path := wlit "recipes/001_soup" ++ [56448%N] ++ wlit ".txt";
     wide_type := wlit "text";
     wide_content := wlit "Boil water";
     wide_preview := wlit "Boil water";
     wide_size := 10 |}.

(** A record with a letter outside Latin-1 and one outside the basic
    plane. *)
Definition far_recipe : wide_recipe :=
  {| wide_id := 7;
     wide_filename := wlit "p" ++ [322%N; 128512%N] ++ wlit ".md";
     wide_file_path := wlit "recipes/007_p" ++ [322%N; 128512%N] ++ wlit ".md";
     wide_type := wlit "text";
     wide_content := [34%N; 10%N; 233%N; 8364%N; 1%N; 92%N];
     wide_preview := [34%N; 233%N; 8364%N; 1%N; 92%N];
     wide_size := 12 |}.

(** ** The same program where the unguarded steps can fail

    [index_recipes] above is the run on a host where probing and
    listing the root, reading a size, standard output and the dump of
    the index never fail.  The source puts none of these inside a
    [try]: [recipes_path.exists()], [rglob], [f.is_file()] in the
    comprehension that builds [recipe_files], [filepath.stat()] in the
    record, [json.dump] after [open], and every [print] (those of the
    [except] blocks included, since an error raised in a handler is not
    caught by it).  The definitions below are the same functions with
    these failures; which error each step raises is left to the host. *)

Record host := {
  fs : world;                            (* the filesystem, as before; [index_writable] is [open] alone here *)
  probe_error : option exn;              (* what [recipes_path.exists()] raises, if it does *)
  listing_error : option exn;            (* what [rglob('*')] raises, if it does *)
  is_file_error : entry -> option exn;   (* what [f.is_file()] raises for this path *)
  stat_error : entry -> option exn;      (* what [filepath.stat()] raises for this path *)
  print_error : message -> option exn;   (* what printing these lines raises: the stream
                                            cannot encode them or is closed, or a value
                                            they format cannot be computed *)
  dump_error : option exn                (* what [json.dump] raises, once the file is open:
                                            an error of the disk, or the encoding error
                                            of [write_index_file] for a string beyond
                                            Latin-1 that cannot be encoded *)
}.

(** A step that raises what the host says, or goes on. *)
Definition attempt {A} (error : option exn) (c : run A) : run A :=
  match error with
  | Some e => raise e
  | None => c
  end.

(** [print(...)]. *)
Definition say (h : host) (m : message) : run unit :=
  attempt (print_error h m) (emit (Print m)).

Definition extract_pdf_text_on (h : host) (f : entry) : run str :=
  match pdf_pages f with
  | Reads pages => ret (join [newline] (filter nonempty pages))
  | LibraryMissing => say h MsgPdfLibraryMissing ;; ret []
  | ReadFails => say h (MsgPdfError (path f)) ;; ret []
  end.

Definition extract_html_text_on (h : host) (f : entry) : run str :=
  match html_text f with
  | Reads text => ret text
  | LibraryMissing => say h MsgHtmlLibraryMissing ;; ret []
  | ReadFails => say h (MsgHtmlError (path f)) ;; ret []
  end.

Definition extract_text_file_on (h : host) (f : entry) : run str :=
  match file_text f with
  | Reads text => ret text
  | LibraryMissing | ReadFails => say h (MsgTextError (path f)) ;; ret []
  end.

Definition extract_on (h : host) (f : entry) : run (str * str) :=
  let ext := lower (suffix (name f)) in
  if str_in ext pdf_ext then
    text <- extract_pdf_text_on h f ;; ret (text, lit "pdf")
  else if str_in ext html_ext then
    text <- extract_html_text_on h f ;; ret (text, lit "html")
  else
    text <- extract_text_file_on h f ;; ret (text, lit "text").

(** [filepath.stat().st_size]. *)
Definition stat_size (h : host) (f : entry) : run Z :=
  attempt (stat_error h f) (ret (st_size f)).

Definition process_file_on (h : host) (total idx : Z) (f : entry)
  (recipes : list recipe) : run (list recipe) :=
  say h (MsgProcessing idx total (name f)) ;;
  extracted <- extract_on h f ;;
  let '(text, file_type) := extracted in
  (if nonempty text then ret tt else say h (MsgNoText (name f))) ;;
  if copy_ok f then
    emit (Copy (path f) copy_dir_name (safe_filename idx f)) ;;
    let web_path := lit "recipes/" ++ safe_filename idx f in
    bytes <- stat_size h f ;;
    ret (recipes ++ [ {| id := idx;
                         filename := name f;
                         file_path := web_path;
                         type := file_type;
                         content := text;
                         preview := create_preview text default_max_length;
                         size := bytes |} ])
  else
    say h MsgCopyError ;; ret recipes.

Fixpoint process_files_on (h : host) (total idx : Z) (files : list entry)
  (recipes : list recipe) : run (list recipe) :=
  match files with
  | [] => ret recipes
  | f :: rest =>
      recipes' <- process_file_on h total idx f recipes ;;
      process_files_on h total (idx + 1) rest recipes'
  end.

(** The error of the first path, in listing order, on which [is_file()]
    raises. *)
Fixpoint first_error (error : entry -> option exn) (files : list entry)
  : option exn :=
  match files with
  | [] => None
  | f :: rest =>
      match error f with
      | Some e => Some e
      | None => first_error error rest
      end
  end.

(** [all_files] and the comprehension of [recipe_files]: [is_file()]
    is called on every listed path, and the first one it raises on
    stops the run. *)
Definition discover (h : host) : run (list entry) :=
  attempt (listing_error h)
    (attempt (first_error (is_file_error h) (listing (fs h)))
       (ret (recipe_files (fs h)))).

(** [open(index_path, 'w')], then [json.dump]. *)
Definition write_index_on (h : host) (output_file : str)
  (recipes : list recipe) : run unit :=
  if index_writable (fs h) then
    match dump_error h with
    | None => emit (WriteIndex output_file recipes)
    | Some e => emit (BreakIndex output_file) ;; raise e
    end
  else raise OSError.

Definition index_recipes_on (recipes_dir output_dir output_file : str)
  (h : host) : run unit :=
  attempt (probe_error h)
    (if negb (root_exists (fs h)) then
       say h (MsgNoDirectory recipes_dir)
     else
       mkdir_exist_ok (fs h) ;;
       files <- discover h ;;
       let total := Z.of_nat (List.length files) in
       say h (MsgFound total) ;;
       recipes <- process_files_on h total 1 files [] ;;
       write_index_on h output_file recipes ;;
       say h (MsgSummary (Z.of_nat (List.length recipes)) (sum_sizes recipes))).

Definition main_on (argv : list str) (h : host) : list event * Z :=
  match argv with
  | _ :: recipes_dir :: rest =>
      let output_dir := nth 0 rest (lit ".") in
      let output_file := nth 1 rest (lit "recipes_index.json") in
      let '(evs, r) :=
        say h (MsgBanner recipes_dir output_dir output_file) ;;
        index_recipes_on recipes_dir output_dir output_file h in
      (evs, match r with inl _ => 1 | inr _ => 0 end)
  | _ => (events (say h MsgUsage), 1)
  end.

(** *** Vocabulary for runs on a host *)

(** A host on which none of these steps fails. *)
Definition quiet (w : world) : host :=
  {| fs := w;
     probe_error := None;
     listing_error := None;
     is_file_error := fun _ => None;
     stat_error := fun _ => None;
     print_error := fun _ => None;
     dump_error := None |}.

(** The error of the first line among these events that standard output
    does not take; [None] when it takes them all. *)
Fixpoint refusal (h : host) (evs : list event) : option exn :=
  match evs with
  | [] => None
  | Print m :: rest =>
      match print_error h m with
      | Some e => Some e
      | None => refusal h rest
      end
  | _ :: rest => refusal h rest
  end.

(** The events up to the first line standard output does not take. *)
Fixpoint spoken (h : host) (evs : list event) : list event :=
  match evs with
  | [] => []
  | Print m :: rest =>
      match print_error h m with
      | Some _ => []
      | None => Print m :: spoken h rest
      end
  | e :: rest => e :: spoken h rest
  end.

(** A fault-free computation cut at the first line that is not taken. *)
Definition censor {A} (h : host) (c : run A) : run A :=
  (spoken h (events c),
   match refusal h (events c) with
   | Some e => inl e
   | None => result c
   end).

(** [is_file()] raises on no listed path. *)
Definition listing_allowed (h : host) : Prop :=
  forall f, In f (listing (fs h)) -> is_file_error h f = None.

(** [stat()] works on every discovered file that gets copied. *)
Definition sizes_known (h : host) : Prop :=
  forall f, In f (recipe_files (fs h)) -> copy_ok f = true ->
            stat_error h f = None.

(** Every unguarded filesystem step of a run over an existing root
    succeeds: the copy directory is there or can be made, the root can
    be listed and every listed path told to be a file or not, the size
    of every copied file can be read, the index file opens and the dump
    completes. *)
Definition steps_succeed (h : host) : Prop :=
  copy_dir_available (fs h) /\ listing_error h = None /\
  listing_allowed h /\ sizes_known h /\
  index_writable (fs h) = true /\ dump_error h = None.

(** *** Sample worlds *)

Definition text_file (p n body : string) (copies : bool) : entry :=
  {| path := lit p;
     name := lit n;
     is_file := true;
     pdf_pages := ReadFails;
     html_text := ReadFails;
     file_text := Reads (lit body);
     copy_ok := copies;
     st_size := len (lit body) |}.

(** Two text files; the first one cannot be copied. *)
Definition first_copy_fails : world :=
  {| root_exists := true;
     listing := [text_file "in/soup.txt" "soup.txt" "Boil water" false;
                 text_file "in/cake.txt" "cake.txt" "Mix flour" true];
     output_dir_state := Directory;
     copy_dir_state := Missing;
     output_dir_writable := true;
     index_writable := true |}.

(** The root holds one text file; the output directory does not exist. *)
Definition no_output_dir : world :=
  {| root_exists := true;
     listing := [text_file "in/cake.txt" "cake.txt" "Mix flour" true];
     output_dir_state := Missing;
     copy_dir_state := Missing;
     output_dir_writable := false;
     index_writable := false |}.

(** The root does not exist. *)
Definition no_root : world :=
  {| root_exists := false;
     listing := [];
     output_dir_state := Directory;
     copy_dir_state := Missing;
     output_dir_writable := true;
     index_writable := true |}.

(** *** Sample hosts *)

(** Two text files that can both be copied, and an output directory
    ready for them. *)
Definition two_recipes : world :=
  {| root_exists := true;
     listing := [text_file "in/soup.txt" "soup.txt" "Boil water" true;
                 text_file "in/cake.txt" "cake.txt" "Mix flour" true];
     output_dir_state := Directory;
     copy_dir_state := Missing;
     output_dir_writable := true;
     index_writable := true |}.

(** [is_file()] is denied on [soup.txt]. *)
Definition is_file_denied : host :=
  {| fs := two_recipes;
     probe_error := None;
     listing_error := None;
     is_file_error := fun f => if str_eqb (name f) (lit "soup.txt")
                               then Some PermissionError else None;
     stat_error := fun _ => None;
     print_error := fun _ => None;
     dump_error := None |}.

(** Standard output cannot encode the check mark of the summary. *)
Definition no_check_mark : host :=
  {| fs := two_recipes;
     probe_error := None;
     listing_error := None;
     is_file_error := fun _ => None;
     stat_error := fun _ => None;
     print_error := fun m => match m with
                             | MsgSummary _ _ => Some UnicodeEncodeError
                             | _ => None
                             end;
     dump_error := None |}.

(** The dump raises once the index file is open. *)
Definition dump_fails : host :=
  {| fs := two_recipes;
     probe_error := None;
     listing_error := None;
     is_file_error := fun _ => None;
     stat_error := fun _ => None;
     print_error := fun _ => None;
     dump_error := Some UnicodeEncodeError |}.

(** *** Letter case, replaced spaces and the place of a copy, stated
    without [lower], [replace] and the events *)

Definition ascii_capital (c : ascii) : bool :=
  (65 <=? code c) && (code c <=? 90).

(** The same letter in either case: equal characters, or one of A..Z
    and its small letter. *)
Definition same_letter (a b : ascii) : Prop :=
  a = b \/
  (ascii_capital a = true /\ code b = code a + 32) \/
  (ascii_capital b = true /\ code a = code b + 32).

Definition equal_ignoring_case (a b : str) : Prop := Forall2 same_letter a b.






(** *** Vocabulary for the further properties *)

(** The destinations of the copies made, in order, relative to the
    output directory. *)
Fixpoint copy_targets (evs : list event) : list str :=
  match evs with
  | [] => []
  | Copy _ dir file_name :: rest =>
      (dir ++ lit "/" ++ file_name) :: copy_targets rest
  | _ :: rest => copy_targets rest
  end.

(** The sources of the copies made, in order. *)
Fixpoint copy_sources (evs : list event) : list str :=
  match evs with
  | [] => []
  | Copy source _ _ :: rest => source :: copy_sources rest
  | _ :: rest => copy_sources rest
  end.

(** The same path under another file name. *)
Definition with_name (f : entry) (n : str) : entry :=
  {| path := path f;
     name := n;
     is_file := is_file f;
     pdf_pages := pdf_pages f;
     html_text := html_text f;
     file_text := file_text f;
     copy_ok := copy_ok f;
     st_size := st_size f |}.









(** A character the encoder writes as it is. *)
Definition plain_char (c : ascii) : bool :=
  negb (Ascii.eqb c quote) && negb (Ascii.eqb c backslash)
  && negb (code c <? 32).

(** The second file of [first_copy_fails]. *)
Definition cake_file : entry :=
  text_file "in/cake.txt" "cake.txt" "Mix flour" true.


(* ================================================================== *)
(** * Part II: theorems *)
(* ================================================================== *)

Example create_preview_short :
  create_preview (lit "  Mix  flour and   water ") 200 = lit "Mix flour and water".
Proof. reflexivity. Qed.

Example create_preview_cut :
  create_preview (lit "Mix flour and water") 12 = lit "Mix flour...".
Proof. reflexivity. Qed.

(** ** Whitespace cleaning *)

Lemma is_space_space : is_space space = true.
Proof. reflexivity. Qed.

Lemma eqb_space_true c : Ascii.eqb c space = true -> c = space.
Proof. apply Ascii.eqb_eq. Qed.

Lemma split_ws_nonempty s cur : cur <> [] -> split_ws cur s <> [].
Proof.
  revert cur; induction s as [|c rest IH]; intros cur Hcur; simpl.
  - destruct cur; congruence.
  - destruct (is_space c).
    + destruct cur; congruence.
    + apply IH. destruct cur; discriminate.
Qed.

Lemma split_ws_sub_ws s :
  (forall cur, split_ws cur (sub_ws false s) = split_ws cur s) /\
  split_ws [] (sub_ws true s) = split_ws [] s.
Proof.
  induction s as [|c rest [IHf IHt]]; simpl; [now split|].
  destruct (is_space c) eqn:Hc; split; intros; simpl;
    rewrite ?is_space_space, ?Hc, ?IHt, ?IHf; reflexivity.
Qed.

Lemma words_lstrip s : words (lstrip s) = words s.
Proof.
  unfold words; induction s as [|c rest IH]; simpl; [reflexivity|].
  destruct (is_space c) eqn:Hc; simpl; [exact IH | now rewrite Hc].
Qed.

Lemma rstrip_nil_split s cur :
  rstrip s = [] ->
  split_ws cur s = match cur with [] => [] | _ => [cur] end.
Proof.
  revert cur; induction s as [|c rest IH]; intros cur H; simpl in *;
    [reflexivity|].
  destruct (rstrip rest) eqn:Hr; [|discriminate].
  destruct (is_space c); [|discriminate].
  rewrite (IH [] eq_refl). now destruct cur.
Qed.

Lemma split_ws_rstrip s cur : split_ws cur (rstrip s) = split_ws cur s.
Proof.
  revert cur; induction s as [|c rest IH]; intros cur; simpl;
    [reflexivity|].
  destruct (rstrip rest) as [|k kept] eqn:Hr.
  - destruct (is_space c) eqn:Hc; simpl.
    + rewrite (rstrip_nil_split rest [] Hr). now destruct cur.
    + rewrite Hc. rewrite <- IH. reflexivity.
  - simpl. destruct (is_space c); rewrite <- ?IH; reflexivity.
Qed.

Lemma words_clean text : words (clean text) = words text.
Proof.
  unfold clean, strip, re_sub_ws, words.
  rewrite split_ws_rstrip. fold (words (lstrip (sub_ws false text))).
  rewrite words_lstrip. apply split_ws_sub_ws.
Qed.

(** The output of the substitution is single-spaced; after a run has
    been replaced the rest starts with a word. *)
Lemma sub_ws_true_starts s : starts_with_word (sub_ws true s) = true.
Proof.
  induction s as [|c rest IH]; simpl; [reflexivity|].
  destruct (is_space c) eqn:Hc; simpl; [exact IH | now rewrite Hc].
Qed.

Lemma sub_ws_single_spaced s b : single_spaced (sub_ws b s) = true.
Proof.
  revert b; induction s as [|c rest IH]; intros b; simpl; [reflexivity|].
  destruct (is_space c) eqn:Hc.
  - destruct b; [apply IH|]. simpl. rewrite IH, andb_true_r.
    pose proof (sub_ws_true_starts rest) as Hs.
    destruct (sub_ws true rest); [reflexivity | exact Hs].
  - simpl. now rewrite Hc, IH.
Qed.

Lemma lstrip_single_spaced s :
  single_spaced s = true -> single_spaced (lstrip s) = true.
Proof.
  induction s as [|c rest IH]; simpl; intros H; [reflexivity|].
  destruct (is_space c) eqn:Hc; [|simpl; now rewrite Hc in *].
  apply IH. now apply andb_prop in H.
Qed.

Lemma lstrip_starts s : starts_with_word (lstrip s) = true.
Proof.
  induction s as [|c rest IH]; simpl; [reflexivity|].
  destruct (is_space c) eqn:Hc; [exact IH | simpl; now rewrite Hc].
Qed.

Lemma rstrip_head c rest :
  is_space c = false -> exists kept, rstrip (c :: rest) = c :: kept.
Proof.
  intros Hc; simpl. destruct (rstrip rest); rewrite ?Hc; eauto.
Qed.

Lemma rstrip_starts s :
  starts_with_word s = true -> starts_with_word (rstrip s) = true.
Proof.
  destruct s as [|c rest]; [reflexivity|]. simpl starts_with_word at 1.
  intros Hc. apply negb_true_iff in Hc.
  destruct (rstrip_head c rest Hc) as [kept ->]. simpl. now rewrite Hc.
Qed.

Lemma rstrip_collapsed s :
  single_spaced s = true -> collapsed (rstrip s) = true.
Proof.
  induction s as [|c rest IH]; simpl; intros H; [reflexivity|].
  apply andb_prop in H as [Hc Hrest]. specialize (IH Hrest).
  destruct (rstrip rest) as [|k kept] eqn:Hr.
  - destruct (is_space c) eqn:Hsp; [reflexivity|]. simpl. now rewrite Hsp.
  - change (collapsed (c :: k :: kept))
      with ((negb (is_space c)
             || (Ascii.eqb c space && negb (is_space k)))
            && collapsed (k :: kept)).
    rewrite IH, andb_true_r.
    destruct (is_space c) eqn:Hsp; [|reflexivity]. simpl in *.
    apply andb_prop in Hc as [Heq Hnext]. rewrite Heq. simpl.
    destruct rest as [|d rest']; [discriminate|].
    apply negb_true_iff in Hnext.
    destruct (rstrip_head d rest' Hnext) as [kept' Hk].
    rewrite Hk in Hr. injection Hr as -> _. now rewrite Hnext.
Qed.

Lemma clean_is_cleaned text : is_cleaned (clean text) = true.
Proof.
  unfold is_cleaned, clean, strip, re_sub_ws. apply andb_true_intro; split.
  - apply rstrip_starts, lstrip_starts.
  - apply rstrip_collapsed, lstrip_single_spaced, sub_ws_single_spaced.
Qed.

(** Joining the words of a cleaned text gives the text back. *)
Lemma join_split_collapsed s cur :
  collapsed s = true ->
  (cur = [] -> starts_with_word s = true) ->
  (forall c, In c cur -> is_space c = false) ->
  join [space] (split_ws cur s) = cur ++ s.
Proof.
  revert cur; induction s as [|c rest IH]; intros cur Hcol Hst Hcur.
  - simpl. destruct cur; [reflexivity | now rewrite app_nil_r].
  - simpl in Hcol. apply andb_prop in Hcol as [Hc Hrest]. simpl.
    destruct (is_space c) eqn:Hsp.
    + simpl in Hc. apply andb_prop in Hc as [Heq Hnext].
      apply eqb_space_true in Heq; subst c.
      destruct cur as [|k cur'].
      { specialize (Hst eq_refl). discriminate Hst. }
      destruct rest as [|d rest']; [discriminate|].
      assert (Hne : split_ws [] (d :: rest') <> []).
      { simpl. apply negb_true_iff in Hnext. rewrite Hnext.
        apply split_ws_nonempty. discriminate. }
      assert (Hj : join [space] (split_ws [] (d :: rest')) = d :: rest').
      { apply (IH [] Hrest); [intros _; exact Hnext | intros ? []]. }
      destruct (split_ws [] (d :: rest')) as [|w more] eqn:Hw;
        [congruence|].
      change (join [space] ((k :: cur') :: w :: more))
        with ((k :: cur') ++ [space] ++ join [space] (w :: more)).
      now rewrite Hj.
    + rewrite IH; [now rewrite <- app_assoc | exact Hrest | |].
      * intros E. destruct cur; discriminate.
      * intros x Hx. apply in_app_or in Hx as [Hx|[<-|[]]]; auto.
Qed.

Lemma join_words_cleaned s :
  is_cleaned s = true -> collapse_and_trim s = s.
Proof.
  intros H. apply andb_prop in H as [Hst Hcol].
  unfold collapse_and_trim, words.
  now rewrite join_split_collapsed; [| | |intros ? []].
Qed.

(** The first line of [create_preview] computes the words of the text
    joined by single spaces. *)
Lemma clean_collapse_and_trim text : clean text = collapse_and_trim text.
Proof.
  rewrite <- (join_words_cleaned (clean text) (clean_is_cleaned text)).
  unfold collapse_and_trim. now rewrite words_clean.
Qed.

Lemma clean_cleaned s : is_cleaned s = true -> clean s = s.
Proof.
  intros H. rewrite clean_collapse_and_trim. now apply join_words_cleaned.
Qed.


(** ** Truncation *)

Lemma rfind_None c s : rfind c s = None -> ~ In c s.
Proof.
  induction s as [|x rest IH]; simpl; [tauto|].
  destruct (rfind c rest); [discriminate|].
  destruct (Ascii.eqb x c) eqn:E; [discriminate|].
  apply Ascii.eqb_neq in E. intros _ [H|H]; [congruence | now apply IH].
Qed.

Lemma rfind_Some c s i :
  rfind c s = Some i ->
  s = firstn i s ++ c :: skipn (S i) s /\ ~ In c (skipn (S i) s).
Proof.
  revert i; induction s as [|x rest IH]; simpl; intros i H; [discriminate|].
  destruct (rfind c rest) as [j|] eqn:Hr.
  - injection H as <-. destruct (IH j eq_refl) as [Heq Hnot].
    split; [simpl; f_equal; exact Heq | exact Hnot].
  - destruct (Ascii.eqb x c) eqn:E; [|discriminate]. injection H as <-.
    apply Ascii.eqb_eq in E; subst x. split; [reflexivity|].
    now apply rfind_None.
Qed.

Lemma rfind_In c s : In c s -> exists i, rfind c s = Some i.
Proof.
  intros H. destruct (rfind c s) eqn:E; [eauto|].
  now apply rfind_None in E.
Qed.

Lemma slice_to_prefix s m : exists k, slice_to s m = firstn k s.
Proof. unfold slice_to. destruct (m <? 0); eauto. Qed.

Lemma slice_to_length s m : 0 <= m -> len (slice_to s m) <= m.
Proof.
  intros Hm. unfold slice_to, len.
  destruct (Z.ltb_spec m 0); [lia|]. rewrite length_firstn. lia.
Qed.

Lemma rsplit1_head_length s : len (hd [] (rsplit1 space s)) <= len s.
Proof.
  unfold rsplit1, len. destruct (rfind space s); simpl; [|lia].
  rewrite length_firstn. lia.
Qed.

(** In a cleaned text a space always follows a complete word. *)
Lemma collapsed_before_space b r :
  collapsed (b ++ space :: r) = true ->
  b = [] \/ exists front x, b = front ++ [x] /\ is_space x = false.
Proof.
  induction b as [|c b' IH]; [now left|]. intros H. right.
  change (collapsed ((c :: b') ++ space :: r))
    with ((negb (is_space c)
           || (Ascii.eqb c space
               && match b' ++ space :: r with
                  | [] => false | d :: _ => negb (is_space d) end))
          && collapsed (b' ++ space :: r)) in H.
  apply andb_prop in H as [Hc Hrest].
  destruct (IH Hrest) as [->|(front & x & -> & Hx)].
  - exists [], c. split; [reflexivity|]. simpl in Hc.
    rewrite andb_false_r, orb_false_r in Hc. now apply negb_true_iff.
  - exists (c :: front), x. now split.
Qed.

Lemma cleaned_before_space b r :
  is_cleaned (b ++ space :: r) = true ->
  exists front x, b = front ++ [x] /\ is_space x = false.
Proof.
  intros H. apply andb_prop in H as [Hst Hcol].
  destruct (collapsed_before_space b r Hcol) as [->|H]; [discriminate | exact H].
Qed.

Lemma not_mid_word_before_space body rest :
  ~ ends_mid_word (body ++ space :: rest) body.
Proof.
  intros (x & y & front & rest' & _ & Heq & _ & Hy).
  apply app_inv_head in Heq. injection Heq as <- _. discriminate Hy.
Qed.

Lemma preview_body_app body : preview_body (body ++ ellipsis) = body.
Proof.
  unfold preview_body. rewrite length_app, Nat.add_sub.
  rewrite firstn_app, Nat.sub_diag, firstn_all. apply app_nil_r.
Qed.

(** When the truncated prefix holds no space, nothing is trimmed. *)
Lemma create_preview_no_space text max_length :
  max_length < len (clean text) ->
  ~ In space (slice_to (clean text) max_length) ->
  create_preview text max_length = slice_to (clean text) max_length ++ ellipsis.
Proof.
  intros Hlen Hno. unfold create_preview. cbv zeta.
  destruct (Z.leb_spec (len (clean text)) max_length); [lia|].
  unfold rsplit1.
  destruct (rfind space (slice_to (clean text) max_length)) eqn:E;
    [|reflexivity].
  apply rfind_Some in E as [E _]. exfalso. apply Hno. rewrite E.
  apply in_or_app. right. now left.
Qed.

(** C2, as the code has it: when the cleaned text is over the limit and
    its truncated prefix contains a space, the preview is that prefix cut
    at its last space followed by the ellipsis; the part kept is followed
    by a space in the cleaned text and ends with the last character of a
    word, so it does not stop inside a word, and the part dropped is the
    space and the space-free partial word after it. *)
Theorem create_preview_word_boundary text max_length :
  max_length < len (clean text) ->
  In space (slice_to (clean text) max_length) ->
  exists body partial rest,
    create_preview text max_length = body ++ ellipsis /\
    preview_body (create_preview text max_length) = body /\
    slice_to (clean text) max_length = body ++ space :: partial /\
    ~ In space partial /\
    clean text = body ++ space :: rest /\
    (exists front x, body = front ++ [x] /\ is_space x = false) /\
    ~ ends_mid_word (clean text) body.
Proof.
  intros Hlen Hin.
  destruct (rfind_In _ _ Hin) as [i Hi].
  destruct (rfind_Some _ _ _ Hi) as [Hsplit Hpartial].
  set (sl := slice_to (clean text) max_length) in *.
  destruct (slice_to_prefix (clean text) max_length) as [k Hk].
  fold sl in Hk.
  assert (Hclean : clean text
                   = firstn i sl ++ space :: (skipn (S i) sl ++ skipn k (clean text))).
  { rewrite <- (firstn_skipn k (clean text)) at 1. rewrite <- Hk.
    rewrite Hsplit at 1. now rewrite <- app_assoc. }
  assert (Hprev : create_preview text max_length = firstn i sl ++ ellipsis).
  { unfold create_preview. cbv zeta.
    destruct (Z.leb_spec (len (clean text)) max_length); [lia|].
    fold sl. unfold rsplit1. now rewrite Hi. }
  exists (firstn i sl), (skipn (S i) sl), (skipn (S i) sl ++ skipn k (clean text)).
  repeat split; try assumption.
  - rewrite Hprev. apply preview_body_app.
  - apply (cleaned_before_space _ (skipn (S i) sl ++ skipn k (clean text))).
    rewrite <- Hclean. apply clean_is_cleaned.
  - rewrite Hclean at 1. apply not_mid_word_before_space.
Qed.

Lemma create_preview_word_boundary_witness :
  5 < len (clean (lit "ab cd ef")) /\
  In space (slice_to (clean (lit "ab cd ef")) 5) /\
  exists body partial rest,
    create_preview (lit "ab cd ef") 5 = body ++ ellipsis /\
    preview_body (create_preview (lit "ab cd ef") 5) = body /\
    slice_to (clean (lit "ab cd ef")) 5 = body ++ space :: partial /\
    ~ In space partial /\
    clean (lit "ab cd ef") = body ++ space :: rest /\
    (exists front x, body = front ++ [x] /\ is_space x = false) /\
    ~ ends_mid_word (clean (lit "ab cd ef")) body.
Proof.
  split; [reflexivity|]. split; [simpl; tauto|].
  apply (create_preview_word_boundary (lit "ab cd ef") 5);
    [reflexivity | simpl; tauto].
Defined.

(** C2 fails as stated: a ten-letter word cut at five characters gives a
    preview that stops inside the word. *)
Lemma create_preview_long_word_cut :
  5 < len (clean (lit "abcdefghij")) /\
  create_preview (lit "abcdefghij") 5 = lit "abcde..." /\
  ends_mid_word (clean (lit "abcdefghij"))
                (preview_body (create_preview (lit "abcdefghij") 5)).
Proof.
  split; [reflexivity|]. split; [reflexivity|].
  exists "e"%char, "f"%char, (lit "abcd"), (lit "ghij"). now repeat split.
Qed.

(** C3, as the code has it: the text is first collapsed and trimmed; a
    cleaned text at or under the limit is returned as it is; and for a
    limit that is not negative, a longer one gives a preview whose part
    before the ellipsis is at most [max_length] long. *)
Theorem create_preview_bounded text max_length :
  0 <= max_length ->
  clean text = collapse_and_trim text /\
  (len (clean text) <= max_length ->
   create_preview text max_length = clean text) /\
  (max_length < len (clean text) ->
   exists body,
     create_preview text max_length = body ++ ellipsis /\
     len body <= max_length).
Proof.
  intros Hm. split; [apply clean_collapse_and_trim|].
  unfold create_preview. cbv zeta.
  destruct (Z.leb_spec (len (clean text)) max_length); split; intros Hlen;
    try lia; [reflexivity|].
  eexists; split; [reflexivity|].
  pose proof (rsplit1_head_length (slice_to (clean text) max_length)).
  pose proof (slice_to_length (clean text) max_length Hm). lia.
Qed.

Lemma create_preview_bounded_witness :
  0 <= 12 /\
  clean (lit " Mix  flour and water") = collapse_and_trim (lit " Mix  flour and water") /\
  (len (clean (lit " Mix  flour and water")) <= 12 ->
   create_preview (lit " Mix  flour and water") 12 = clean (lit " Mix  flour and water")) /\
  (12 < len (clean (lit " Mix  flour and water")) ->
   exists body,
     create_preview (lit " Mix  flour and water") 12 = body ++ ellipsis /\
     len body <= 12).
Proof.
  split; [lia|]. apply (create_preview_bounded (lit " Mix  flour and water") 12). lia.
Defined.

(** C3 fails as stated for a negative limit: [create_preview("abc", -1)]
    is ["ab..."], two characters before the ellipsis. *)
Lemma create_preview_negative_limit :
  -1 < len (clean (lit "abc")) /\
  create_preview (lit "abc") (-1) = lit "ab" ++ ellipsis /\
  ~ (exists body,
       create_preview (lit "abc") (-1) = body ++ ellipsis /\ len body <= -1).
Proof.
  split; [reflexivity|]. split; [reflexivity|].
  intros (body & _ & Hlen). unfold len in Hlen. lia.
Qed.

(** C9: on a text that is already collapsed, trimmed and at or under the
    limit, [create_preview] returns the text, so applying it twice gives
    the same string as applying it once. *)
Theorem create_preview_idempotent text max_length :
  is_cleaned text = true ->
  len text <= max_length ->
  create_preview text max_length = text /\
  create_preview (create_preview text max_length) max_length
  = create_preview text max_length.
Proof.
  intros Hc Hlen.
  assert (H : create_preview text max_length = text).
  { unfold create_preview. cbv zeta. rewrite (clean_cleaned text Hc).
    destruct (Z.leb_spec (len text) max_length); [reflexivity | lia]. }
  split; [exact H | now rewrite !H].
Qed.

Lemma create_preview_idempotent_witness :
  is_cleaned (lit "Mix flour") = true /\
  len (lit "Mix flour") <= 9 /\
  create_preview (lit "Mix flour") 9 = lit "Mix flour" /\
  create_preview (create_preview (lit "Mix flour") 9) 9
  = create_preview (lit "Mix flour") 9.
Proof.
  split; [reflexivity|]. split; [unfold len; simpl; lia|].
  apply (create_preview_idempotent (lit "Mix flour") 9);
    [reflexivity | unfold len; simpl; lia].
Defined.

(** ** The monad of a run *)

Lemma bind_value {A B} evs (a : A) (k : A -> run B) :
  bind (evs, inr a) k = (evs ++ events (k a), result (k a)).
Proof. unfold bind, events, result. now destruct (k a). Qed.

Lemma bind_raise {A B} evs e (k : A -> run B) :
  bind (evs, inl e) k = (evs, inl e).
Proof. reflexivity. Qed.

Lemma run_eta {A} (c : run A) : c = (events c, result c).
Proof. now destruct c. Qed.

(** ** The extractors never raise and only print *)

Lemma only_prints_nil : only_prints [].
Proof. intros e []. Qed.

Lemma only_prints_one m : only_prints [Print m].
Proof. intros e [<-|[]]. eauto. Qed.

Lemma only_prints_app a b :
  only_prints a -> only_prints b -> only_prints (a ++ b).
Proof. intros Ha Hb e H. apply in_app_or in H as [H|H]; auto. Qed.

Create HintDb runs.
#[local] Hint Resolve only_prints_nil only_prints_one only_prints_app : runs.

(** One case per branch of the extension test and per outcome of the
    reader it selects. *)
Ltac extractor_cases f :=
  unfold extracted, extract, extract_pdf_text, extract_html_text,
    extract_text_file;
  destruct (str_in _ pdf_ext);
    [destruct (pdf_pages f)
    |destruct (str_in _ html_ext);
       [destruct (html_text f) | destruct (file_text f)]].

Lemma extract_total f :
  result (extract f) = inr (extracted f) /\ only_prints (events (extract f)).
Proof.
  extractor_cases f; simpl; split; auto with runs.
Qed.

Section Loop.

(** The number of discovered files, which the loop only prints. *)
Variable total : Z.

(** What one iteration does: it appends the record of the file exactly
    when the copy succeeds, and copies exactly then. *)
Lemma process_file_spec idx f recipes :
  exists prints warn,
    only_prints prints /\ only_prints warn /\
    process_file total idx f recipes =
    if copy_ok f
    then (Print (MsgProcessing idx total (name f)) :: prints ++ warn
            ++ [Copy (path f) copy_dir_name (safe_filename idx f)],
          inr (recipes ++ [record_of (idx, f)]))
    else (Print (MsgProcessing idx total (name f)) :: prints ++ warn
            ++ [Print MsgCopyError],
          inr recipes).
Proof.
  destruct (extract_total f) as [Hres Hev].
  unfold process_file, record_of.
  rewrite (run_eta (extract f)), Hres.
  destruct (extracted f) as [text file_type] eqn:Hx.
  exists (events (extract f)),
    (if nonempty text then [] else [Print (MsgNoText (name f))]).
  split; [exact Hev|]. split; [destruct (nonempty text); auto with runs|].
  unfold emit, ret. cbn [bind].
  destruct (nonempty text), (copy_ok f); cbn; rewrite ?app_nil_r;
    reflexivity.
Qed.

(** ** The loop *)

Lemma enumerate_In {A} (l : list A) start i a :
  In (i, a) (enumerate start l) <->
  exists k, nth_error l k = Some a /\ i = start + Z.of_nat k.
Proof.
  revert start; induction l as [|x rest IH]; intros start; simpl.
  - split; [tauto | intros ([|k] & H & _); discriminate].
  - rewrite IH. split.
    + intros [H|(k & Hk & ->)].
      * injection H as <- <-. exists O. split; [reflexivity | lia].
      * exists (S k). split; [exact Hk | lia].
    + intros ([|k] & Hk & ->); simpl in Hk.
      * left. injection Hk as <-. f_equal. lia.
      * right. exists k. split; [exact Hk | lia].
Qed.

Lemma enumerate_fst {A} (l : list A) start :
  map fst (enumerate start l)
  = map (fun k => start + Z.of_nat k) (seq 0 (List.length l)).
Proof.
  revert start; induction l as [|x rest IH]; intros start; simpl;
    [reflexivity|].
  f_equal; [lia|]. rewrite IH, <- seq_shift, map_map.
  apply map_ext. intros k. lia.
Qed.

Lemma enumerate_fst_one {A} (l : list A) :
  map fst (enumerate 1 l) = one_to (List.length l).
Proof.
  rewrite enumerate_fst. unfold one_to.
  rewrite <- seq_shift, map_map. apply map_ext. intros k. lia.
Qed.

Lemma enumerate_length {A} (l : list A) start :
  List.length (enumerate start l) = List.length l.
Proof.
  revert start; induction l; intros; simpl; [reflexivity | now rewrite IHl].
Qed.

(** Any selection of an enumeration keeps the indices increasing and
    inside the enumerated range. *)
Lemma enumerate_filter_increasing {A} (keep : Z * A -> bool) (l : list A) start :
  StronglySorted Z.lt (map fst (filter keep (enumerate start l))) /\
  Forall (fun i => start <= i < start + Z.of_nat (List.length l))
         (map fst (filter keep (enumerate start l))).
Proof.
  revert start; induction l as [|x rest IH]; intros start; simpl.
  - split; constructor.
  - destruct (IH (start + 1)) as [Hs Hb].
    assert (Hb' : Forall (fun i => start + 1 <= i
                                   < start + Z.pos (Pos.of_succ_nat (List.length rest)))
                         (map fst (filter keep (enumerate (start + 1) rest)))).
    { eapply Forall_impl; [|exact Hb]. simpl. intros. lia. }
    destruct (keep (start, x)); simpl.
    + split; constructor; try assumption; try lia.
      * eapply Forall_impl; [|exact Hb']. simpl. intros. lia.
      * eapply Forall_impl; [|exact Hb']. simpl. intros. lia.
    + split; [assumption|].
      eapply Forall_impl; [|exact Hb']. simpl. intros. lia.
Qed.

Lemma filter_all {A} (keep : A -> bool) (l : list A) :
  forallb keep l = true -> filter keep l = l.
Proof.
  induction l as [|x rest IH]; simpl; [reflexivity|].
  intros H. apply andb_prop in H as [-> H]. now rewrite IH.
Qed.

Lemma enumerate_all_copied (l : list entry) start :
  forallb copy_ok l = true -> forallb copied (enumerate start l) = true.
Proof.
  revert start; induction l as [|x rest IH]; intros start; simpl;
    [reflexivity|].
  intros H. apply andb_prop in H as [Hx H]. unfold copied at 1. simpl.
  now rewrite Hx, IH.
Qed.

Lemma filter_copied_length (l : list entry) start :
  List.length (filter copied (enumerate start l))
  = List.length (filter copy_ok l).
Proof.
  revert start; induction l as [|x rest IH]; intros start; simpl;
    [reflexivity|].
  unfold copied at 1. simpl. destruct (copy_ok x); simpl; now rewrite IH.
Qed.

Lemma record_of_id p : id (record_of p) = fst p.
Proof. now destruct p. Qed.

(** The loop never raises; it returns the records of the copied files,
    appended in order. *)
Lemma process_files_result files : forall idx recipes,
  result (process_files total idx files recipes)
  = inr (recipes ++ map record_of (filter copied (enumerate idx files))).
Proof.
  induction files as [|f rest IH]; intros idx recipes; simpl.
  - now rewrite app_nil_r.
  - destruct (process_file_spec idx f recipes)
      as (prints & warn & _ & _ & ->).
    unfold copied at 1. simpl.
    destruct (copy_ok f); rewrite bind_value; cbn [result snd]; rewrite IH;
      [now rewrite <- app_assoc | reflexivity].
Qed.

(** The copies the loop makes are those of the files whose copy
    succeeds, each under its safe name. *)
Lemma process_files_copies files source dir file_name :
  forall idx recipes,
  In (Copy source dir file_name) (events (process_files total idx files recipes))
  <-> exists i f, In (i, f) (enumerate idx files) /\ copy_ok f = true /\
        source = path f /\ dir = copy_dir_name /\
        file_name = safe_filename i f.
Proof.
  induction files as [|f rest IH]; intros idx recipes; simpl.
  - split; [tauto | intros (? & ? & [] & _)].
  - destruct (process_file_spec idx f recipes)
      as (prints & warn & Hp & Hw & ->).
    assert (Hnot : forall x, only_prints x -> ~ In (Copy source dir file_name) x).
    { intros x Hx Hin. destruct (Hx _ Hin). discriminate. }
    destruct (copy_ok f) eqn:Hc; rewrite bind_value; cbn [events fst];
      rewrite in_app_iff, IH; simpl; rewrite !in_app_iff; simpl.
    + split.
      * intros [[H|[H|[H|[H|[]]]]]|(i & g & Hin & H)].
        -- discriminate.
        -- now apply Hnot in H.
        -- now apply Hnot in H.
        -- injection H as <- <- <-. exists idx, f. auto.
        -- exists i, g. auto.
      * intros (i & g & [H|Hin] & Hg & -> & -> & ->).
        -- injection H as <- <-. left. auto.
        -- right. exists i, g. auto.
    + split.
      * intros [[H|[H|[H|[H|[]]]]]|(i & g & Hin & H)]; try discriminate.
        -- now apply Hnot in H.
        -- now apply Hnot in H.
        -- exists i, g. auto.
      * intros (i & g & [H|Hin] & Hg & -> & -> & ->).
        -- injection H as <- <-. congruence.
        -- right. exists i, g. auto.
Qed.

Lemma process_files_no_write files : forall idx recipes,
  no_write (events (process_files total idx files recipes)).
Proof.
  induction files as [|f rest IH]; intros idx recipes n rs; simpl; [tauto|].
  destruct (process_file_spec idx f recipes)
    as (prints & warn & Hp & Hw & ->).
  assert (Hnot : forall x, only_prints x -> ~ In (WriteIndex n rs) x).
  { intros x Hx Hin. destruct (Hx _ Hin). discriminate. }
  destruct (copy_ok f); rewrite bind_value; cbn [events fst];
    rewrite in_app_iff; simpl; rewrite !in_app_iff; simpl;
    intros [[H|[H|[H|[H|[]]]]]|H]; try discriminate;
    try (now apply Hnot in H); now apply IH in H.
Qed.

End Loop.

Lemma written_index_no_write evs rest :
  no_write evs -> written_index (evs ++ rest) = written_index rest.
Proof.
  induction evs as [|e evs IH]; intros H; [reflexivity|].
  simpl. destruct e as [m|d|src d n|n rs|n];
    try (apply IH; intros n' rs' Hin; apply (H n' rs'); now right).
  exfalso. apply (H n rs). now left.
Qed.

Lemma written_index_none evs : no_write evs -> written_index evs = None.
Proof.
  intros H. rewrite <- (app_nil_r evs). now rewrite written_index_no_write.
Qed.

(** ** The whole run *)

Lemma mkdir_exist_ok_events w :
  events (mkdir_exist_ok w) = [] \/
  events (mkdir_exist_ok w) = [Mkdir copy_dir_name].
Proof.
  unfold mkdir_exist_ok.
  destruct (output_dir_state w), (copy_dir_state w),
    (output_dir_writable w); simpl; auto.
Qed.

Lemma mkdir_exist_ok_raises w e :
  result (mkdir_exist_ok w) = inl e -> events (mkdir_exist_ok w) = [].
Proof.
  unfold mkdir_exist_ok.
  destruct (output_dir_state w), (copy_dir_state w),
    (output_dir_writable w); simpl; auto; discriminate.
Qed.

(** The three ways a run can go: the root is missing; creating the copy
    directory raises; or every discovered file is processed and the index
    is written, unless writing it raises. *)
Lemma index_recipes_cases recipes_dir output_dir output_file w :
  let total := Z.of_nat (List.length (recipe_files w)) in
  let before :=
    events (mkdir_exist_ok w) ++ Print (MsgFound total)
      :: events (process_files total 1 (recipe_files w) []) in
  index_recipes recipes_dir output_dir output_file w =
  if root_exists w then
    match result (mkdir_exist_ok w) with
    | inl e => ([], inl e)
    | inr _ =>
        if index_writable w
        then (before ++
                [WriteIndex output_file (collected w);
                 Print (MsgSummary (Z.of_nat (List.length (collected w)))
                                   (sum_sizes (collected w)))],
              inr tt)
        else (before, inl OSError)
    end
  else ([Print (MsgNoDirectory recipes_dir)], inr tt).
Proof.
  intros total before. unfold index_recipes.
  destruct (root_exists w); [|reflexivity]. cbn [negb].
  rewrite (run_eta (mkdir_exist_ok w)).
  destruct (result (mkdir_exist_ok w)) as [e|[]] eqn:Hm.
  - rewrite (mkdir_exist_ok_raises w e Hm). reflexivity.
  - rewrite bind_value. cbv zeta. unfold emit at 1. rewrite bind_value.
    fold total.
    rewrite (run_eta (process_files total 1 (recipe_files w) [])).
    rewrite process_files_result. cbn [app]. fold (collected w).
    rewrite bind_value. unfold write_index.
    destruct (index_writable w); unfold emit, raise, before;
      cbn [bind events result fst snd app];
      rewrite ?app_nil_r, <- ?app_assoc; reflexivity.
Qed.

Lemma before_write_no_write w total :
  no_write (events (mkdir_exist_ok w) ++ Print (MsgFound total)
              :: events (process_files total 1 (recipe_files w) [])).
Proof.
  intros n rs H. apply in_app_or in H as [H|[H|H]].
  - destruct (mkdir_exist_ok_events w) as [E|E]; rewrite E in H;
      [destruct H | destruct H as [H|[]]; discriminate].
  - discriminate.
  - now apply process_files_no_write in H.
Qed.

(** The index a run writes, if any, holds the collected records. *)
Lemma written_index_collected recipes_dir output_dir output_file w recs :
  written_index (events (index_recipes recipes_dir output_dir output_file w))
  = Some recs ->
  recs = collected w.
Proof.
  rewrite index_recipes_cases.
  destruct (root_exists w); [|discriminate].
  destruct (result (mkdir_exist_ok w)); [discriminate|].
  destruct (index_writable w); cbn [events fst].
  - rewrite written_index_no_write by apply before_write_no_write.
    simpl. congruence.
  - rewrite written_index_none by apply before_write_no_write. discriminate.
Qed.

(** C1, as the code has it: the ids of a written index are the 1-based
    discovery indices of the files whose copy succeeded, in discovery
    order; they increase strictly, so no id repeats, and lie between 1
    and the number of discovered files; and when every copy succeeds
    they are exactly 1..N for the N records written. *)
Theorem index_ids recipes_dir output_dir output_file w recs :
  written_index (events (index_recipes recipes_dir output_dir output_file w))
  = Some recs ->
  map id recs = map fst (filter copied (enumerate 1 (recipe_files w))) /\
  StronglySorted Z.lt (map id recs) /\
  Forall (fun i => 1 <= i <= Z.of_nat (List.length (recipe_files w)))
         (map id recs) /\
  (forallb copy_ok (recipe_files w) = true ->
   map id recs = one_to (List.length recs)).
Proof.
  intros H. apply written_index_collected in H. subst recs.
  assert (Hids : map id (collected w)
                 = map fst (filter copied (enumerate 1 (recipe_files w)))).
  { unfold collected. rewrite map_map. apply map_ext, record_of_id. }
  destruct (enumerate_filter_increasing copied (recipe_files w) 1) as [Hs Hb].
  rewrite Hids. repeat split; try assumption.
  - eapply Forall_impl; [|exact Hb]. intros i Hi. cbv beta in *. lia.
  - intros Hall. unfold collected. rewrite length_map.
    rewrite (filter_all copied) by now apply enumerate_all_copied.
    rewrite enumerate_length. apply enumerate_fst_one.
Qed.

Lemma index_ids_witness :
  written_index
    (events (index_recipes (lit "in") (lit "out") (lit "index.json")
                           first_copy_fails))
  = Some (collected first_copy_fails) /\
  map id (collected first_copy_fails)
  = map fst (filter copied (enumerate 1 (recipe_files first_copy_fails))) /\
  StronglySorted Z.lt (map id (collected first_copy_fails)) /\
  Forall (fun i => 1 <= i
                   <= Z.of_nat (List.length (recipe_files first_copy_fails)))
         (map id (collected first_copy_fails)) /\
  (forallb copy_ok (recipe_files first_copy_fails) = true ->
   map id (collected first_copy_fails)
   = one_to (List.length (collected first_copy_fails))).
Proof.
  split; [reflexivity|].
  apply (index_ids (lit "in") (lit "out") (lit "index.json")
                   first_copy_fails).
  reflexivity.
Defined.

(** C1 fails as stated: when the copy of the first of two files fails,
    the run writes one record and its id is 2. *)
Lemma index_ids_gap :
  exists recs,
    written_index
      (events (index_recipes (lit "in") (lit "out") (lit "index.json")
                             first_copy_fails))
    = Some recs /\
    map id recs = [2] /\
    map id recs <> one_to (List.length recs).
Proof.
  eexists. split; [reflexivity|]. split; [reflexivity | discriminate].
Qed.

(** ** Names of the copies *)

Example format_03d_7 : format_03d 7 = lit "007".
Proof. reflexivity. Qed.

Example format_03d_42 : format_03d 42 = lit "042".
Proof. reflexivity. Qed.

Example format_03d_1000 : format_03d 1000 = lit "1000".
Proof. reflexivity. Qed.

Example safe_filename_spaces :
  safe_filename 3 (text_file "in/my best soup.txt" "my best soup.txt" "" true)
  = lit "003_my_best_soup.txt".
Proof. reflexivity. Qed.

Lemma string_of_uint_digits d :
  Forall (fun c => is_digit c = true) (lit (NilEmpty.string_of_uint d)).
Proof. induction d; simpl; constructor; auto. Qed.

Lemma digits_of_digits n : Forall (fun c => is_digit c = true) (digits_of n).
Proof. apply string_of_uint_digits. Qed.

Lemma zero_pad_digits width s :
  Forall (fun c => is_digit c = true) s ->
  Forall (fun c => is_digit c = true) (zero_pad width s).
Proof.
  intros H. unfold zero_pad. apply Forall_app. split; [|exact H].
  induction (width - List.length s)%nat; simpl; constructor; auto.
Qed.

Lemma zero_pad_length width s :
  List.length (zero_pad width s) = Nat.max width (List.length s).
Proof. unfold zero_pad. rewrite length_app, repeat_length. lia. Qed.

Lemma uint_of_zero_padded k d :
  NilEmpty.uint_of_string
    (string_of_list_ascii (repeat "0"%char k ++ lit (NilEmpty.string_of_uint d)))
  = Some (Nat.iter k Decimal.D0 d).
Proof.
  induction k as [|k IH]; simpl.
  - unfold lit. rewrite string_of_list_ascii_of_string. apply NilEmpty.usu.
  - now rewrite IH.
Qed.

Lemma of_uint_leading_zeros k d :
  N.of_uint (Nat.iter k Decimal.D0 d) = N.of_uint d.
Proof. induction k; simpl; auto. Qed.

Lemma decimal_value_zero_pad width n :
  decimal_value (zero_pad width (digits_of n)) = Some n.
Proof.
  unfold decimal_value, zero_pad, digits_of.
  rewrite uint_of_zero_padded. simpl.
  now rewrite of_uint_leading_zeros, DecimalN.Unsigned.of_to.
Qed.

(** The index can be read back from its formatted form. *)
Lemma format_03d_value idx :
  0 <= idx -> decimal_value (format_03d idx) = Some (Z.to_N idx).
Proof.
  intros H. unfold format_03d. destruct (Z.ltb_spec idx 0); [lia|].
  apply decimal_value_zero_pad.
Qed.

Lemma format_03d_digits idx :
  0 <= idx -> Forall (fun c => is_digit c = true) (format_03d idx).
Proof.
  intros H. unfold format_03d. destruct (Z.ltb_spec idx 0); [lia|].
  apply zero_pad_digits, digits_of_digits.
Qed.

Lemma format_03d_length idx :
  0 <= idx ->
  List.length (format_03d idx)
  = Nat.max 3 (List.length (digits_of (Z.to_N idx))).
Proof.
  intros H. unfold format_03d. destruct (Z.ltb_spec idx 0); [lia|].
  apply zero_pad_length.
Qed.

Lemma replace_digits s :
  Forall (fun c => is_digit c = true) s -> replace space "_"%char s = s.
Proof.
  induction 1 as [|c s Hc _ IH]; simpl; [reflexivity|]. rewrite IH.
  destruct (Ascii.eqb_spec c space); [subst c; discriminate | reflexivity].
Qed.

(** The safe name is the padded index, an underscore, and the file name
    with its spaces replaced. *)
Lemma safe_filename_shape idx f :
  0 <= idx ->
  safe_filename idx f
  = format_03d idx ++ lit "_" ++ replace space "_"%char (name f).
Proof.
  intros H. unfold safe_filename, replace. rewrite !map_app.
  fold (replace space "_"%char (format_03d idx)).
  now rewrite replace_digits by now apply format_03d_digits.
Qed.

Lemma digits_prefix_unique (a b x y : str) :
  Forall (fun c => is_digit c = true) a ->
  Forall (fun c => is_digit c = true) b ->
  a ++ lit "_" ++ x = b ++ lit "_" ++ y -> a = b.
Proof.
  intros Ha; revert b; induction Ha as [|c a Hc _ IH];
    intros b Hb H; destruct Hb as [|d b Hd Hb]; simpl in *.
  - reflexivity.
  - injection H as <- _. discriminate.
  - injection H as -> _. discriminate.
  - injection H as -> H. f_equal. now apply IH.
Qed.

Lemma safe_filename_index idx idx' f g :
  0 <= idx -> 0 <= idx' ->
  safe_filename idx f = safe_filename idx' g -> idx = idx'.
Proof.
  intros H H' E. rewrite !safe_filename_shape in E by assumption.
  apply digits_prefix_unique in E; try now apply format_03d_digits.
  apply (f_equal decimal_value) in E.
  rewrite !format_03d_value in E by assumption.
  injection E as E. lia.
Qed.

Lemma nzhead_not_D0 d u : Decimal.nzhead d <> Decimal.D0 u.
Proof. induction d; simpl; try discriminate. exact IHd. Qed.

Lemma to_uint_normal n : N.to_uint n = Decimal.unorm (N.to_uint n).
Proof.
  rewrite <- (DecimalN.Unsigned.to_of (N.to_uint n)).
  now rewrite DecimalN.Unsigned.of_to.
Qed.

(** The digits of a number are not empty and do not start with a zero,
    unless the number is zero. *)
Lemma digits_of_head n :
  exists d more, digits_of n = d :: more /\
    is_digit d = true /\
    Ascii.eqb d "0"%char && nonempty more = false.
Proof.
  unfold digits_of. rewrite to_uint_normal. unfold Decimal.unorm.
  pose proof (string_of_uint_digits (Decimal.nzhead (N.to_uint n))) as Hd.
  destruct (Decimal.nzhead (N.to_uint n)) eqn:E;
    try (now apply nzhead_not_D0 in E);
    simpl in *; eexists _, _; (split; [reflexivity|]); split; reflexivity.
Qed.







(** ** Which files give a record *)

Lemma extraction_fails_empty f :
  extraction_fails f = true -> fst (extracted f) = [].
Proof.
  unfold extraction_fails. extractor_cases f; simpl; intros H;
    try reflexivity; discriminate.
Qed.

Lemma collected_In w r :
  In r (collected w) <->
  exists i f, nth_error (recipe_files w) i = Some f /\ copy_ok f = true /\
    r = record_of (1 + Z.of_nat i, f).
Proof.
  unfold collected. rewrite in_map_iff. split.
  - intros ([idx f] & <- & H). apply filter_In in H as [H Hc].
    apply enumerate_In in H as (i & Hi & ->). now exists i, f.
  - intros (i & f & Hi & Hc & ->). exists (1 + Z.of_nat i, f).
    split; [reflexivity|]. apply filter_In. split; [|exact Hc].
    apply enumerate_In. now exists i.
Qed.

(** C4: the loop returns without raising; the collection it returns,
    which is what a run writes when it writes an index, has one record
    per file whose copy succeeded.  For the file at position [i]: a
    record with its index is in the collection if and only if its copy
    succeeded, and it was copied if and only if its copy succeeded; when
    the copy succeeded the record is the file's own, and a failed or
    empty extraction leaves its content empty. *)
Theorem record_iff_copied w :
  let files := recipe_files w in
  let loop := process_files (Z.of_nat (List.length files)) 1 files [] in
  result loop = inr (collected w) /\
  (forall recipes_dir output_dir output_file recs,
     written_index
       (events (index_recipes recipes_dir output_dir output_file w))
     = Some recs -> recs = collected w) /\
  List.length (collected w) = List.length (filter copy_ok files) /\
  forall i f, nth_error files i = Some f ->
    let idx := 1 + Z.of_nat i in
    ((exists r, In r (collected w) /\ id r = idx) <-> copy_ok f = true) /\
    (In (Copy (path f) copy_dir_name (safe_filename idx f)) (events loop)
     <-> copy_ok f = true) /\
    (copy_ok f = true ->
     In (record_of (idx, f)) (collected w) /\
     filename (record_of (idx, f)) = name f /\
     (extraction_fails f = true \/ fst (extracted f) = [] ->
      content (record_of (idx, f)) = [])).
Proof.
  intros files loop. split; [apply process_files_result|].
  split; [intros; eapply written_index_collected; eassumption|].
  split; [unfold collected; rewrite length_map; apply filter_copied_length|].
  intros i f Hf idx. split; [|split].
  - split.
    + intros (r & Hr & Hid). apply collected_In in Hr as (j & g & Hj & Hc & ->).
      rewrite record_of_id in Hid. cbn [fst] in Hid.
      assert (j = i) by (unfold idx in Hid; lia). subst j.
      fold files in Hj. congruence.
    + intros Hc. exists (record_of (idx, f)). split; [|reflexivity].
      apply collected_In. now exists i, f.
  - split.
    + intros H. apply process_files_copies in H as (j & g & Hin & Hc & _ & _ & E).
      apply enumerate_In in Hin as (k & Hk & ->).
      apply safe_filename_index in E; [|unfold idx; lia|lia].
      assert (k = i) by (unfold idx in E; lia). subst k. congruence.
    + intros Hc. apply process_files_copies. exists idx, f.
      repeat split; try assumption. apply enumerate_In. now exists i.
  - intros Hc. split; [apply collected_In; now exists i, f|].
    split; [reflexivity|]. intros [H|H]; [apply extraction_fails_empty in H|];
      exact H.
Qed.

(** ** When a run stops early *)

Lemma mkdir_exist_ok_succeeds w :
  result (mkdir_exist_ok w) = inr tt <-> copy_dir_available w.
Proof.
  unfold mkdir_exist_ok, copy_dir_available.
  destruct (output_dir_state w), (copy_dir_state w),
    (output_dir_writable w); simpl; split;
    try discriminate; try reflexivity; intuition discriminate.
Qed.

Lemma mkdir_exist_ok_result w :
  copy_dir_available w \/
  (~ copy_dir_available w /\ exists e, result (mkdir_exist_ok w) = inl e).
Proof.
  destruct (result (mkdir_exist_ok w)) as [e|[]] eqn:H.
  - right. split; [|eauto]. intros Ha. apply mkdir_exist_ok_succeeds in Ha.
    congruence.
  - left. now apply mkdir_exist_ok_succeeds.
Qed.

(** How a run ends, in terms of the world alone. *)
Lemma index_recipes_result recipes_dir output_dir output_file w :
  let r := index_recipes recipes_dir output_dir output_file w in
  (result r = inr tt <->
   root_exists w = false \/
   (copy_dir_available w /\ index_writable w = true)) /\
  (written_index (events r) = Some (collected w) <->
   root_exists w = true /\ copy_dir_available w /\ index_writable w = true) /\
  (written_index (events r) = None \/
   written_index (events r) = Some (collected w)).
Proof.
  cbv zeta. rewrite index_recipes_cases.
  destruct (root_exists w).
  - destruct (mkdir_exist_ok_result w) as [Ha|[Hn (e & He)]].
    + pose proof Ha as Hm. apply mkdir_exist_ok_succeeds in Hm. rewrite Hm.
      destruct (index_writable w); cbn [events result fst snd].
      * rewrite written_index_no_write by apply before_write_no_write.
        simpl. intuition congruence.
      * rewrite written_index_none by apply before_write_no_write.
        intuition congruence.
    + rewrite He. simpl. intuition congruence.
  - simpl. intuition congruence.
Qed.

(** ** Runs on a host *)

Lemma bind_ext {A B} (c : run A) (k k' : A -> run B) :
  (forall a, k a = k' a) -> bind c k = bind c k'.
Proof.
  intros H. destruct c as [evs [e|a]]; simpl; [reflexivity | now rewrite H].
Qed.

Lemma bind_ret {A B} (a : A) (k : A -> run B) : bind (ret a) k = k a.
Proof. unfold ret, bind. now destruct (k a). Qed.

Lemma result_bind_returns {A B} (c : run A) (k : A -> run B) b :
  result (bind c k) = inr b ->
  exists a, result c = inr a /\ result (k a) = inr b.
Proof.
  destruct c as [evs [e|a]]; unfold result; simpl; [discriminate|].
  destruct (k a) as [evs' r] eqn:Hk. simpl. intros ->. exists a.
  rewrite Hk. auto.
Qed.

Lemma attempt_returns {A} error (c : run A) a :
  result (attempt error c) = inr a <-> error = None /\ result c = inr a.
Proof.
  destruct error as [e|]; simpl; split; try discriminate; try tauto.
  intros [H _]. discriminate.
Qed.

Lemma refusal_app h a b :
  refusal h (a ++ b)
  = match refusal h a with Some e => Some e | None => refusal h b end.
Proof.
  induction a as [|e a IH]; [reflexivity|].
  destruct e as [m|d|src d n|n rs|n]; simpl; try exact IH.
  now destruct (print_error h m).
Qed.

Lemma spoken_app h a b :
  spoken h (a ++ b)
  = match refusal h a with
    | Some _ => spoken h a
    | None => spoken h a ++ spoken h b
    end.
Proof.
  induction a as [|e a IH]; [reflexivity|].
  destruct e as [m|d|src d n|n rs|n]; simpl;
    try (rewrite IH; destruct (refusal h a); reflexivity).
  destruct (print_error h m); [reflexivity|].
  rewrite IH. now destruct (refusal h a).
Qed.

Lemma spoken_all h evs : refusal h evs = None -> spoken h evs = evs.
Proof.
  induction evs as [|e evs IH]; [reflexivity|].
  destruct e as [m|d|src d n|n rs|n]; simpl; intros H;
    try (now rewrite IH).
  destruct (print_error h m); [discriminate|]. now rewrite IH.
Qed.

Lemma censor_all {A} h (c : run A) :
  refusal h (events c) = None -> censor h c = c.
Proof.
  intros H. unfold censor. rewrite H, spoken_all by exact H.
  symmetry. apply run_eta.
Qed.

Lemma censor_result {A} h (c : run A) a :
  result (censor h c) = inr a <->
  refusal h (events c) = None /\ result c = inr a.
Proof.
  unfold censor. cbn [result snd].
  destruct (refusal h (events c)); split; intros H;
    try discriminate; intuition discriminate.
Qed.

Lemma censor_ret {A} h (a : A) : censor h (ret a) = ret a.
Proof. reflexivity. Qed.

Lemma censor_say h m : censor h (emit (Print m)) = say h m.
Proof.
  unfold censor, say, attempt, emit, raise. simpl.
  now destruct (print_error h m).
Qed.

Lemma censor_bind {A B} h (c : run A) (k : A -> run B) :
  censor h (bind c k) = bind (censor h c) (fun a => censor h (k a)).
Proof.
  destruct c as [evs [e|a]]; unfold censor; simpl.
  - now destruct (refusal h evs).
  - destruct (k a) as [evs' r] eqn:Hk. simpl. rewrite ?Hk. simpl.
    rewrite spoken_app, refusal_app.
    destruct (refusal h evs); simpl; rewrite ?Hk; reflexivity.
Qed.

Lemma censor_mkdir h w : censor h (mkdir_exist_ok w) = mkdir_exist_ok w.
Proof.
  unfold mkdir_exist_ok.
  destruct (output_dir_state w), (copy_dir_state w), (output_dir_writable w);
    reflexivity.
Qed.

Lemma extract_on_censor h f : extract_on h f = censor h (extract f).
Proof.
  unfold extract_on, extract, extract_pdf_text_on, extract_html_text_on,
    extract_text_file_on, extract_pdf_text, extract_html_text,
    extract_text_file.
  destruct (str_in _ pdf_ext);
    [destruct (pdf_pages f)
    |destruct (str_in _ html_ext);
       [destruct (html_text f) | destruct (file_text f)]];
    rewrite censor_bind; try rewrite censor_bind;
    rewrite ?censor_say, ?censor_ret; reflexivity.
Qed.

Lemma process_file_on_censor h total idx f recipes :
  (copy_ok f = true -> stat_error h f = None) ->
  process_file_on h total idx f recipes
  = censor h (process_file total idx f recipes).
Proof.
  intros Hstat. unfold process_file_on, process_file.
  rewrite censor_bind, censor_say. apply bind_ext. intros _.
  rewrite censor_bind, <- extract_on_censor. apply bind_ext.
  intros [text file_type]. rewrite censor_bind.
  assert (Hw : (if nonempty text then ret tt else say h (MsgNoText (name f)))
               = censor h (if nonempty text then ret tt
                           else emit (Print (MsgNoText (name f))))).
  { destruct (nonempty text); [reflexivity | now rewrite censor_say]. }
  rewrite Hw. apply bind_ext. intros _.
  destruct (copy_ok f).
  - unfold stat_size. rewrite Hstat by reflexivity. reflexivity.
  - now rewrite censor_bind, censor_say.
Qed.

Lemma process_files_on_censor h total files : forall idx recipes,
  (forall f, In f files -> copy_ok f = true -> stat_error h f = None) ->
  process_files_on h total idx files recipes
  = censor h (process_files total idx files recipes).
Proof.
  induction files as [|f rest IH]; intros idx recipes Hstat; [reflexivity|].
  cbn [process_files_on process_files]. rewrite censor_bind.
  rewrite process_file_on_censor by (apply Hstat; now left).
  apply bind_ext. intros recs. apply IH. intros g Hg. apply Hstat. now right.
Qed.

(** A file whose copy succeeds and whose size cannot be read stops the
    loop. *)
Lemma process_file_on_stat h total idx f recipes recs :
  result (process_file_on h total idx f recipes) = inr recs ->
  copy_ok f = true -> stat_error h f = None.
Proof.
  unfold process_file_on. intros H Hc.
  apply result_bind_returns in H as ([] & _ & H).
  apply result_bind_returns in H as ([text file_type] & _ & H).
  apply result_bind_returns in H as ([] & _ & H).
  rewrite Hc in H.
  apply result_bind_returns in H as ([] & _ & H).
  apply result_bind_returns in H as (bytes & H & _).
  unfold stat_size in H. now apply attempt_returns in H.
Qed.

Lemma process_files_on_stat h total files : forall idx recipes recs,
  result (process_files_on h total idx files recipes) = inr recs ->
  forall f, In f files -> copy_ok f = true -> stat_error h f = None.
Proof.
  induction files as [|f rest IH]; intros idx recipes recs H g Hg;
    [destruct Hg|].
  cbn [process_files_on] in H.
  apply result_bind_returns in H as (rs & Hf & H).
  destruct Hg as [<-|Hg]; [eapply process_file_on_stat; eauto|].
  eapply IH; eauto.
Qed.

Lemma first_error_none error files :
  first_error error files = None <-> forall f, In f files -> error f = None.
Proof.
  induction files as [|f rest IH]; simpl; [tauto|].
  destruct (error f) eqn:He.
  - split; [discriminate|]. intros H. rewrite <- He. apply H. now left.
  - rewrite IH. split.
    + intros H g [<-|Hg]; auto.
    + intros H g Hg. apply H. now right.
Qed.

(** Where no unguarded filesystem step fails, the run is the fault-free
    run cut at the first line standard output does not take. *)
Lemma index_recipes_on_censor recipes_dir output_dir output_file h :
  probe_error h = None ->
  root_exists (fs h) = false \/
  (listing_error h = None /\ listing_allowed h /\ sizes_known h /\
   dump_error h = None) ->
  index_recipes_on recipes_dir output_dir output_file h
  = censor h (index_recipes recipes_dir output_dir output_file (fs h)).
Proof.
  intros Hp H. unfold index_recipes_on, index_recipes. rewrite Hp.
  cbn [attempt].
  destruct (root_exists (fs h)); cbn [negb];
    [|now rewrite censor_say].
  destruct H as [H|(Hl & Ha & Hs & Hd)]; [discriminate|].
  rewrite censor_bind, censor_mkdir. apply bind_ext. intros _.
  unfold discover. rewrite Hl. unfold listing_allowed in Ha.
  apply first_error_none in Ha. rewrite Ha.
  cbn [attempt]. rewrite bind_ret. cbv zeta.
  rewrite censor_bind, censor_say. apply bind_ext. intros _.
  rewrite censor_bind, process_files_on_censor by exact Hs.
  apply bind_ext. intros recs.
  rewrite censor_bind. unfold write_index_on, write_index. rewrite Hd.
  destruct (index_writable (fs h)); [|reflexivity].
  apply bind_ext. intros _. now rewrite censor_say.
Qed.

(** A run over an existing root that returns has passed every unguarded
    filesystem step. *)
Lemma index_recipes_on_passed recipes_dir output_dir output_file h :
  root_exists (fs h) = true ->
  result (index_recipes_on recipes_dir output_dir output_file h) = inr tt ->
  steps_succeed h.
Proof.
  intros Hroot. unfold index_recipes_on. rewrite Hroot. cbn [negb].
  intros H. apply attempt_returns in H as [_ H].
  apply result_bind_returns in H as ([] & Hm & H).
  apply result_bind_returns in H as (files & Hdisc & H).
  unfold discover in Hdisc.
  apply attempt_returns in Hdisc as [Hl Hdisc].
  apply attempt_returns in Hdisc as [Hd Hdisc].
  injection Hdisc as <-.
  apply result_bind_returns in H as ([] & _ & H).
  apply result_bind_returns in H as (recs & Hproc & H).
  apply result_bind_returns in H as ([] & Hw & _).
  unfold write_index_on in Hw.
  split; [now apply mkdir_exist_ok_succeeds|].
  split; [exact Hl|]. split; [unfold listing_allowed; now apply first_error_none|].
  split; [intros f Hf; eapply process_files_on_stat; eauto|].
  destruct (index_writable (fs h)); [|discriminate].
  split; [reflexivity|]. destruct (dump_error h); [discriminate | reflexivity].
Qed.

(** How a run on a host ends: it returns exactly when the probe of the
    root works, standard output takes every line of the fault-free run,
    and the root is missing or every unguarded filesystem step
    succeeds; and then it is the fault-free run. *)
Lemma index_recipes_on_returns recipes_dir output_dir output_file h :
  let r := index_recipes_on recipes_dir output_dir output_file h in
  let ideal := index_recipes recipes_dir output_dir output_file (fs h) in
  (result r = inr tt <->
   probe_error h = None /\
   refusal h (events ideal) = None /\
   (root_exists (fs h) = false \/ steps_succeed h)) /\
  (result r = inr tt -> r = ideal).
Proof.
  cbv zeta.
  assert (Hfwd : result (index_recipes_on recipes_dir output_dir output_file h)
                 = inr tt ->
                 probe_error h = None /\
                 (root_exists (fs h) = false \/ steps_succeed h)).
  { intros H. split.
    - unfold index_recipes_on in H. now apply attempt_returns in H.
    - destruct (root_exists (fs h)) eqn:Hroot; [right | now left].
      eapply index_recipes_on_passed; eauto. }
  assert (Hc : probe_error h = None ->
               root_exists (fs h) = false \/ steps_succeed h ->
               index_recipes_on recipes_dir output_dir output_file h
               = censor h (index_recipes recipes_dir output_dir output_file
                                         (fs h))).
  { intros Hp Hs. apply index_recipes_on_censor; [exact Hp|].
    destruct Hs as [Hs|Hs]; [now left | right]. unfold steps_succeed in Hs.
    tauto. }
  split; [split|].
  - intros H. destruct (Hfwd H) as [Hp Hs].
    rewrite (Hc Hp Hs) in H. apply censor_result in H. tauto.
  - intros (Hp & Ha & Hs). rewrite (Hc Hp Hs). apply censor_result.
    split; [exact Ha|]. apply index_recipes_result.
    destruct Hs as [Hs|Hs]; [now left | right]. unfold steps_succeed in Hs.
    tauto.
  - intros H. destruct (Hfwd H) as [Hp Hs]. rewrite (Hc Hp Hs) in H |- *.
    apply censor_result in H. now apply censor_all.
Qed.

Lemma refusal_quiet w evs : refusal (quiet w) evs = None.
Proof.
  induction evs as [|e evs IH]; [reflexivity|]. now destruct e.
Qed.

(** On a quiet host the run is the fault-free run. *)
Lemma index_recipes_on_quiet recipes_dir output_dir output_file w :
  index_recipes_on recipes_dir output_dir output_file (quiet w)
  = index_recipes recipes_dir output_dir output_file w.
Proof.
  rewrite index_recipes_on_censor.
  - apply (censor_all (quiet w)). apply refusal_quiet.
  - reflexivity.
  - right. repeat split.
Qed.



(** C5, as the code has it: with a root found missing the run prints the
    error line and nothing else happens: no directory is created, no
    file copied, no index written (and if standard output does not take
    the line, the print raises, still with no other effect).  A missing
    root is the only condition on which the function returns without an
    index.  It is not the only thing that stops a run: over an existing
    root the run returns exactly when no step outside a [try] fails,
    that is the probe of the root, creating the copy subdirectory,
    listing the root and [is_file()] on each listed path, every print,
    [stat()] of each copied file, opening the index and dumping it; and
    a run that returns is the fault-free run and has written the
    collected records. *)
Theorem missing_root_stops recipes_dir output_dir output_file h :
  let r := index_recipes_on recipes_dir output_dir output_file h in
  let ideal := index_recipes recipes_dir output_dir output_file (fs h) in
  (probe_error h = None -> root_exists (fs h) = false ->
   (forall e, In e (events r) -> e = Print (MsgNoDirectory recipes_dir)) /\
   match print_error h (MsgNoDirectory recipes_dir) with
   | None => r = ([Print (MsgNoDirectory recipes_dir)], inr tt)
   | Some e => r = ([], inl e)
   end) /\
  (result r = inr tt ->
   (written_index (events r) = None <-> root_exists (fs h) = false)) /\
  (root_exists (fs h) = true ->
   (result r = inr tt <->
    probe_error h = None /\ steps_succeed h /\
    refusal h (events ideal) = None)) /\
  (root_exists (fs h) = true -> result r = inr tt ->
   r = ideal /\ written_index (events r) = Some (collected (fs h))).
Proof.
  cbv zeta.
  destruct (index_recipes_on_returns recipes_dir output_dir output_file h)
    as [Hret Heq]. cbv zeta in Hret, Heq.
  destruct (index_recipes_result recipes_dir output_dir output_file (fs h))
    as (Hres & Hsome & Hor). cbv zeta in Hres, Hsome, Hor.
  assert (Hwritten : root_exists (fs h) = true ->
            result (index_recipes_on recipes_dir output_dir output_file h)
            = inr tt ->
            written_index
              (events (index_recipes_on recipes_dir output_dir output_file h))
            = Some (collected (fs h))).
  { intros Hroot H. rewrite (Heq H). apply Hsome.
    apply Hret in H as (_ & _ & [H|H]); [congruence|].
    unfold steps_succeed in H. tauto. }
  split; [|split; [|split]].
  - intros Hp Hroot. unfold index_recipes_on, say. rewrite Hp, Hroot.
    cbn [attempt negb].
    destruct (print_error h _); cbn [attempt]; split; try reflexivity.
    + intros ev [].
    + intros ev [<-|[]]. reflexivity.
  - intros H. destruct (root_exists (fs h)) eqn:Hroot.
    + rewrite (Hwritten eq_refl H). split; discriminate.
    + split; [reflexivity|]. intros _. rewrite (Heq H).
      unfold index_recipes. rewrite Hroot. reflexivity.
  - intros Hroot. rewrite Hret, Hroot. split.
    + intros (Hp & Ha & [H|H]); [discriminate | tauto].
    + tauto.
  - intros Hroot H. split; [exact (Heq H) | exact (Hwritten Hroot H)].
Qed.

(** C5 fails as stated: the root exists, the output directory does not,
    and the run is stopped by [FileNotFoundError] before any file is
    processed; no index is written.  Nothing else fails on this host. *)
Lemma missing_output_dir_stops :
  root_exists (fs (quiet no_output_dir)) = true /\
  index_recipes_on (lit "in") (lit "nowhere") (lit "recipes_index.json")
                   (quiet no_output_dir)
  = ([], inl FileNotFoundError) /\
  written_index
    (events (index_recipes_on (lit "in") (lit "nowhere")
                              (lit "recipes_index.json")
                              (quiet no_output_dir)))
  = None.
Proof. repeat split. Qed.

(** With a missing root, and nothing else failing, the run prints the
    error and returns. *)
Example missing_root_returns :
  index_recipes_on (lit "nowhere") (lit "out") (lit "recipes_index.json")
                   (quiet no_root)
  = ([Print (MsgNoDirectory (lit "nowhere"))], inr tt).
Proof. reflexivity. Qed.

(** Other runs over an existing root that stop: [is_file()] denied on a
    listed path stops the run after the copy directory is made and
    before any file is processed. *)
Example is_file_denied_stops :
  index_recipes_on (lit "in") (lit "out") (lit "recipes_index.json")
                   is_file_denied
  = ([Mkdir copy_dir_name], inl PermissionError).
Proof. reflexivity. Qed.

(** A dump that raises leaves the index file broken, after both files
    were copied. *)
Example dump_fails_midway :
  let r := index_recipes_on (lit "in") (lit "out") (lit "recipes_index.json")
                            dump_fails in
  result r = inl UnicodeEncodeError /\
  In (BreakIndex (lit "recipes_index.json")) (events r) /\
  written_index (events r) = None /\
  copy_targets (events r)
  = [lit "recipes/001_soup.txt"; lit "recipes/002_cake.txt"].
Proof. vm_compute. repeat split. do 6 right. now left. Qed.

(** ** Exit status *)




(** With every file copied and the index written, the summary that
    standard output cannot encode still ends the process with status
    one. *)
Example summary_not_printed :
  let r := main_on [lit "index_recipes.py"; lit "in"; lit "out"]
                   no_check_mark in
  snd r = 1 /\
  written_index (fst r) = Some (collected two_recipes) /\
  steps_succeed no_check_mark.
Proof.
  split; [reflexivity|]. split; [reflexivity|].
  unfold steps_succeed, copy_dir_available, listing_allowed, sizes_known.
  simpl. intuition.
Qed.

(** ** Discovery and the type of a record *)

Example suffix_upper : lower (suffix (lit "Tarte Tatin.PDF")) = lit ".pdf".
Proof. reflexivity. Qed.

Example suffix_last_dot : suffix (lit "soup.final.Htm") = lit ".Htm".
Proof. reflexivity. Qed.

Example suffix_hidden : suffix (lit ".txt") = [].
Proof. reflexivity. Qed.

Lemma str_eqb_eq a b : str_eqb a b = true <-> a = b.
Proof.
  revert b; induction a as [|x a IH]; intros [|y b]; simpl;
    try (split; [discriminate | congruence]); [tauto|].
  rewrite andb_true_iff, IH, Ascii.eqb_eq. split.
  - intros [-> ->]. reflexivity.
  - intros H. injection H as -> ->. auto.
Qed.

Lemma str_in_In x l : str_in x l = true <-> In x l.
Proof.
  unfold str_in. rewrite existsb_exists. split.
  - intros (y & Hy & E). apply str_eqb_eq in E. now subst.
  - intros H. exists x. split; [exact H | now apply str_eqb_eq].
Qed.



Lemma extracted_type f :
  snd (extracted f)
  = if str_in (lower (suffix (name f))) pdf_ext then lit "pdf"
    else if str_in (lower (suffix (name f))) html_ext then lit "html"
    else lit "text".
Proof.
  extractor_cases f; reflexivity.
Qed.

(** *** Lower-casing against an independent notion of letter case *)









(** A capital extension is selected, and typed by its small letters. *)
Example discovery_selects_capitals :
  let f := with_name cake_file (lit "Tarte Tatin.PDF") in
  equal_ignoring_case (suffix (name f)) (lit ".pdf") /\
  is_recipe_file f = true /\
  type (record_of (1, f)) = lit "pdf".
Proof.
  cbv zeta. split; [|split; reflexivity].
  repeat constructor; right; left; split; reflexivity.
Qed.

(** ** The index file read back *)

(** *** The codec *)

Lemma N_of_byte n : (n < 256)%N -> N_of_ascii (byte n) = n.
Proof. apply N_ascii_embedding. Qed.

Lemma narrow_wide s : narrow (wide s) = s.
Proof.
  unfold narrow, wide. induction s as [|c s IH]; [reflexivity|].
  cbn [map]. unfold chr at 1. rewrite ascii_N_embedding. f_equal. exact IH.
Qed.

Lemma wide_app a b : wide (a ++ b) = wide a ++ wide b.
Proof. apply map_app. Qed.

Lemma continuation_byte x :
  (x < 64)%N -> continuation (byte (128 + x)) = Some x.
Proof.
  intros H. unfold continuation. rewrite N_of_byte by lia.
  replace ((128 <=? 128 + x)%N && (128 + x <? 192)%N) with true.
  - f_equal. lia.
  - symmetry. apply andb_true_intro. split; [apply N.leb_le | apply N.ltb_lt]; lia.
Qed.

Lemma some_inj {A} (a b : A) : Some a = Some b -> a = b.
Proof. congruence. Qed.

Ltac decide_N_tests :=
  repeat match goal with
  | |- context [(?a <? ?b)%N] =>
      first [ replace (a <? b)%N with true
                by (symmetry; apply N.ltb_lt; zify; Z.to_euclidean_division_equations; lia)
            | replace (a <? b)%N with false
                by (symmetry; apply N.ltb_ge; zify; Z.to_euclidean_division_equations; lia) ]
  | |- context [(?a <=? ?b)%N] =>
      first [ replace (a <=? b)%N with true
                by (symmetry; apply N.leb_le; zify; Z.to_euclidean_division_equations; lia)
            | replace (a <=? b)%N with false
                by (symmetry; apply N.leb_gt; zify; Z.to_euclidean_division_equations; lia) ]
  end.

(** Decoding the bytes of one code point gives it back. *)
Lemma utf8_decode_cons b0 r0 :
  utf8_decode (b0 :: r0)
  = let n0 := N_of_ascii b0 in
    if (n0 <? 128)%N then option_map (cons n0) (utf8_decode r0)
    else if (n0 <? 192)%N then None
    else if (n0 <? 224)%N then
      match r0 with
      | b1 :: r1 =>
          match continuation b1 with
          | Some x1 =>
              let c := ((n0 - 192) * 64 + x1)%N in
              if (c <? 128)%N then None
              else option_map (cons c) (utf8_decode r1)
          | None => None
          end
      | _ => None
      end
    else if (n0 <? 240)%N then
      match r0 with
      | b1 :: b2 :: r2 =>
          match continuation b1, continuation b2 with
          | Some x1, Some x2 =>
              let c := (((n0 - 224) * 64 + x1) * 64 + x2)%N in
              if (c <? 2048)%N || is_surrogate c then None
              else option_map (cons c) (utf8_decode r2)
          | _, _ => None
          end
      | _ => None
      end
    else if (n0 <? 248)%N then
      match r0 with
      | b1 :: b2 :: b3 :: r3 =>
          match continuation b1, continuation b2, continuation b3 with
          | Some x1, Some x2, Some x3 =>
              let c := ((((n0 - 240) * 64 + x1) * 64 + x2) * 64 + x3)%N in
              if (c <? 65536)%N || (1114112 <=? c)%N then None
              else option_map (cons c) (utf8_decode r3)
          | _, _, _ => None
          end
      | _ => None
      end
    else None.
Proof. reflexivity. Qed.

Ltac div_lia := zify; Z.to_euclidean_division_equations; lia.

Ltac decode_step :=
  cbn [app]; rewrite utf8_decode_cons; cbv zeta;
  rewrite N_of_byte by div_lia;
  decide_N_tests; cbv iota;
  rewrite ?continuation_byte by div_lia; cbv beta iota zeta.

Lemma utf8_decode_char c bs rest :
  utf8_char c = Some bs ->
  utf8_decode (bs ++ rest) = option_map (cons c) (utf8_decode rest).
Proof.
  unfold utf8_char.
  destruct (N.ltb_spec c 128).
  { intros E. apply some_inj in E. subst bs. decode_step. reflexivity. }
  destruct (N.ltb_spec c 2048).
  { intros E. apply some_inj in E. subst bs. decode_step.
    replace ((192 + c / 64 - 192) * 64 + c mod 64)%N with c by div_lia.
    decide_N_tests. reflexivity. }
  unfold is_surrogate at 1.
  destruct (N.leb_spec 55296 c); destruct (N.leb_spec c 57343);
    cbn [andb]; try discriminate.
  all: destruct (N.ltb_spec c 65536); try (exfalso; lia).
  all: try (intros E; apply some_inj in E; subst bs; decode_step;
    replace (((224 + c / 4096 - 224) * 64 + (c / 64) mod 64) * 64 + c mod 64)%N
      with c by div_lia;
    unfold is_surrogate; decide_N_tests; reflexivity).
  all: destruct (N.ltb_spec c 1114112); try discriminate;
    try (exfalso; lia).
  all: intros E; apply some_inj in E; subst bs; decode_step;
    replace ((((240 + c / 262144 - 240) * 64 + (c / 4096) mod 64) * 64
              + (c / 64) mod 64) * 64 + c mod 64)%N
      with c by div_lia;
    decide_N_tests; reflexivity.
Qed.

Lemma utf8_round_trip s : forall bs,
  utf8_encode s = Some bs -> utf8_decode bs = Some s.
Proof.
  induction s as [|c s IH]; intros bs; cbn [utf8_encode].
  - now intros [= <-].
  - destruct (utf8_char c) as [cs|] eqn:Hc; [|discriminate].
    destruct (utf8_encode s) as [more|]; [|discriminate].
    intros [= <-]. rewrite (utf8_decode_char c cs more Hc), (IH more eq_refl).
    reflexivity.
Qed.

Lemma utf8_char_scalar c :
  scalar_value c = true <-> exists bs, utf8_char c = Some bs.
Proof.
  unfold scalar_value, utf8_char, is_surrogate.
  destruct (N.ltb_spec c 128), (N.ltb_spec c 2048),
    (N.leb_spec 55296 c), (N.leb_spec c 57343), (N.ltb_spec c 65536),
    (N.ltb_spec c 1114112); cbn [andb negb]; try lia;
    split; eauto; try discriminate; intros [bs E]; discriminate.
Qed.

Lemma utf8_encode_encodable s :
  encodable_text s = true <-> exists bs, utf8_encode s = Some bs.
Proof.
  induction s as [|c s IH]; cbn [encodable_text forallb utf8_encode].
  - split; eauto.
  - fold (encodable_text s). rewrite andb_true_iff, IH, utf8_char_scalar.
    split.
    + intros [[cs ->] [more ->]]. eauto.
    + destruct (utf8_char c); [|intros [? ?]; discriminate].
      destruct (utf8_encode s); [|intros [? ?]; discriminate]. eauto.
Qed.

Lemma encodable_text_app a b :
  encodable_text (a ++ b) = encodable_text a && encodable_text b.
Proof. apply forallb_app. Qed.

(** *** Strings *)

Lemma chr_below a : (chr a < 256)%N.
Proof. apply N_ascii_bounded. Qed.

Lemma escape_code_chr a : escape_code (chr a) = wide (escape_char a).
Proof.
  unfold escape_code. pose proof (chr_below a) as H.
  apply N.ltb_lt in H. rewrite H. unfold chr at 1.
  now rewrite ascii_N_embedding.
Qed.

Lemma scanstring_escape_chr a t :
  scanstring (wide (escape_char a) ++ t)
  = match scanstring t with
    | Some (u, r) => Some (chr a :: u, r)
    | None => None
    end.
Proof.
  destruct a as [[] [] [] [] [] [] [] []]; reflexivity.
Qed.

Lemma scanstring_escape_code c t :
  scanstring (escape_code c ++ t)
  = match scanstring t with
    | Some (u, r) => Some (c :: u, r)
    | None => None
    end.
Proof.
  destruct (N.ltb_spec c 256) as [H|H].
  - rewrite <- (N_ascii_embedding c H). fold (chr (ascii_of_N c)).
    rewrite escape_code_chr. apply scanstring_escape_chr.
  - unfold escape_code. replace (c <? 256)%N with false
      by (symmetry; apply N.ltb_ge; exact H).
    cbn [app scanstring].
    replace (c =? chr quote)%N with false
      by (symmetry; apply N.eqb_neq; pose proof (chr_below quote); lia).
    replace (c =? chr backslash)%N with false
      by (symmetry; apply N.eqb_neq; pose proof (chr_below backslash); lia).
    replace (c <? 32)%N with false by (symmetry; apply N.ltb_ge; lia).
    reflexivity.
Qed.

Lemma scanstring_escape s rest :
  scanstring (flat_map escape_code s ++ chr quote :: rest) = Some (s, rest).
Proof.
  induction s as [|c s IH]; [reflexivity|].
  cbn [flat_map]. rewrite <- app_assoc.
  now rewrite scanstring_escape_code, IH.
Qed.

(** *** Integers *)

Lemma is_digit_not_special c :
  is_digit c = true ->
  (chr c =? chr quote)%N = false /\ (chr c =? chr "{")%N = false /\
  (chr c =? chr "[")%N = false /\ (chr c =? chr "n")%N = false /\
  (chr c =? chr "t")%N = false /\ (chr c =? chr "f")%N = false /\
  (chr c =? chr "-")%N = false /\ is_json_ws (chr c) = false /\
  is_digit_code (chr c) = true.
Proof.
  destruct c as [[] [] [] [] [] [] [] []]; intros H;
    try discriminate H; repeat split.
Qed.

Lemma decimal_value_digits_of n : decimal_value (digits_of n) = Some n.
Proof. apply (decimal_value_zero_pad 0 n). Qed.

Lemma span_digits_app ds rest :
  Forall (fun c => is_digit c = true) ds ->
  delimited rest ->
  span_digits (wide ds ++ rest) = (wide ds, rest).
Proof.
  intros Hds [r Hr]. induction Hds as [|c ds Hc _ IH]; cbn [wide map app].
  - destruct Hr as [-> | ->]; reflexivity.
  - cbn [span_digits].
    destruct (is_digit_not_special c Hc) as (_ & _ & _ & _ & _ & _ & _ & _ & ->).
    fold (wide ds). now rewrite IH.
Qed.

Lemma text_eqb_nil_wide s : negb (text_eqb (wide s) []) = nonempty s.
Proof. now destruct s. Qed.

Lemma parse_nat_digits n rest :
  delimited rest ->
  parse_int (wide (digits_of n) ++ rest) = Some (Z.of_N n, rest).
Proof.
  intros Hrest. unfold parse_int.
  destruct (digits_of_head n) as (d & more & E & Hd & Hz).
  pose proof (digits_of_digits n) as Hds.
  pose proof (decimal_value_digits_of n) as Hv.
  rewrite E in *. cbn [wide map app].
  destruct (is_digit_not_special d Hd) as (_ & _ & _ & _ & _ & _ & Hm & _).
  rewrite Hm. fold (wide more).
  change (chr d :: wide more ++ rest) with (wide (d :: more) ++ rest).
  rewrite span_digits_app by assumption. cbn [wide map]. fold (wide more).
  rewrite text_eqb_nil_wide.
  replace (chr d =? chr "0")%N with (Ascii.eqb d "0"%char).
  2:{ destruct (Ascii.eqb_spec d "0"%char) as [->|Hne]; [reflexivity|].
      symmetry. apply N.eqb_neq. intros Heq. apply Hne.
      unfold chr in Heq.
      rewrite <- (ascii_N_embedding d), Heq. reflexivity. }
  rewrite Hz.
  change (chr d :: wide more) with (wide (d :: more)).
  rewrite narrow_wide, Hv.
  destruct Hrest as [r [-> | ->]]; reflexivity.
Qed.

Lemma parse_int_repr n rest :
  delimited rest ->
  parse_int (wide (repr_int n) ++ rest) = Some (n, rest).
Proof.
  intros Hrest. unfold repr_int. destruct (Z.ltb_spec n 0).
  - pose proof (parse_nat_digits (Z.to_N (- n)) rest Hrest) as Hp.
    unfold parse_int in *. cbn [wide map app]. rewrite N.eqb_refl.
    fold (wide (digits_of (Z.to_N (- n)))).
    destruct (digits_of_head (Z.to_N (- n))) as (d & more & E & Hd & _).
    rewrite E in *. cbn [wide map app] in Hp |- *.
    destruct (is_digit_not_special d Hd) as (_ & _ & _ & _ & _ & _ & Hm & _).
    rewrite Hm in Hp.
    destruct (span_digits (chr d :: map chr more ++ rest)) as [ds r].
    destruct ds as [|d' more']; [discriminate|].
    destruct ((d' =? chr "0")%N && negb (text_eqb more' [])); [discriminate|].
    destruct (starts_fraction r); [discriminate|].
    destruct (decimal_value (narrow (d' :: more'))); [|discriminate].
    injection Hp as Hn ->. f_equal. f_equal. lia.
  - rewrite parse_nat_digits by assumption. f_equal. f_equal. lia.
Qed.

(** *** Values *)

Lemma skip_ws_newline_indent level rest :
  skip_ws (wide (newline_indent level) ++ rest) = skip_ws rest.
Proof.
  unfold newline_indent. cbn [wide map app skip_ws].
  change (is_json_ws (chr newline)) with true. cbv iota.
  induction (2 * level)%nat as [|k IH]; [reflexivity|]. exact IH.
Qed.

Lemma skip_ws_space rest : skip_ws (chr space :: rest) = skip_ws rest.
Proof. reflexivity. Qed.

Lemma skip_ws_stop c rest :
  is_json_ws c = false -> skip_ws (c :: rest) = c :: rest.
Proof. intros H. simpl. now rewrite H. Qed.

Lemma join_text_cons sep w ws :
  join_text sep (w :: ws) = w ++ flat_map (fun x => sep ++ x) ws.
Proof.
  revert w; induction ws as [|x ws IH]; intros w.
  - simpl. now rewrite app_nil_r.
  - change (join_text sep (w :: x :: ws))
      with (w ++ sep ++ join_text sep (x :: ws)).
    rewrite IH. cbn [flat_map]. now rewrite <- app_assoc.
Qed.

Lemma parse_value_str fuel s rest :
  parse_value (S fuel) (encode_text s ++ rest) = Some (VStr s, rest).
Proof.
  unfold encode_text. cbn [app parse_value]. rewrite N.eqb_refl.
  rewrite <- app_assoc. cbn [app]. now rewrite scanstring_escape.
Qed.

Lemma repr_int_head n :
  exists c more, repr_int n = c :: more /\
    (c = "-"%char \/ is_digit c = true).
Proof.
  unfold repr_int. destruct (n <? 0); [eauto|].
  destruct (digits_of_head (Z.to_N n)) as (d & more & E & Hd & _). eauto.
Qed.

Lemma parse_value_int fuel n rest :
  delimited rest ->
  parse_value (S fuel) (wide (repr_int n) ++ rest) = Some (VInt n, rest).
Proof.
  intros Hrest. pose proof (parse_int_repr n rest Hrest) as Hp.
  destruct (repr_int_head n) as (c & more & E & Hc). rewrite E in *.
  cbn [wide map app parse_value] in *.
  assert (Hs : (chr c =? chr quote)%N = false /\ (chr c =? chr "{")%N = false /\
               (chr c =? chr "[")%N = false /\ (chr c =? chr "n")%N = false /\
               (chr c =? chr "t")%N = false /\ (chr c =? chr "f")%N = false).
  { destruct Hc as [-> | Hc]; [now repeat split|].
    destruct (is_digit_not_special c Hc) as (? & ? & ? & ? & ? & ? & _).
    now repeat split. }
  destruct Hs as (-> & -> & -> & -> & -> & ->). now rewrite Hp.
Qed.

Lemma parse_value_scalar fuel level v rest :
  scalar v = true -> delimited rest ->
  parse_value (S fuel) (encode_value level v ++ rest) = Some (v, rest).
Proof.
  destruct v; try discriminate; intros _ Hrest; cbn [encode_value].
  - now apply parse_value_int.
  - apply parse_value_str.
Qed.

Lemma skip_ws_scalar level v rest :
  scalar v = true ->
  skip_ws (encode_value level v ++ rest) = encode_value level v ++ rest.
Proof.
  destruct v; try discriminate; intros _; cbn [encode_value].
  - destruct (repr_int_head n) as (c & more & -> & Hc). cbn [wide map app].
    apply skip_ws_stop. destruct Hc as [-> | Hc]; [reflexivity|].
    now destruct (is_digit_not_special c Hc)
      as (_ & _ & _ & _ & _ & _ & _ & ? & _).
  - reflexivity.
Qed.

(** *** Objects *)

Lemma parse_pairs_unfold fuel s :
  parse_pairs (S fuel) s
  = match scanstring s with
    | Some (key, r) =>
        match skip_ws r with
        | [] => None
        | colon :: r1 =>
            if (colon =? chr ":")%N then
              match parse_value fuel (skip_ws r1) with
              | Some (v, r2) =>
                  match skip_ws r2 with
                  | [] => None
                  | d :: r3 =>
                      if (d =? chr "}")%N then Some ([(key, v)], r3)
                      else if (d =? chr ",")%N then
                        match skip_ws r3 with
                        | [] => None
                        | q :: r4 =>
                            if (q =? chr quote)%N then
                              match parse_pairs fuel r4 with
                              | Some (ps, r5) => Some ((key, v) :: ps, r5)
                              | None => None
                              end
                            else None
                        end
                      else None
                  end
              | None => None
              end
            else None
        end
    | None => None
    end.
Proof. reflexivity. Qed.

(** The members of an object whose values are strings and integers are
    read back, given one unit of fuel per member and one more. *)
Lemma parse_pairs_scalars level ps : forall k v fuel rest,
  scalar v = true ->
  Forall (fun p => scalar (snd p) = true) ps ->
  (List.length ps + 2 <= fuel)%nat ->
  parse_pairs fuel
    (flat_map escape_code k ++ chr quote :: wlit ": " ++ encode_value level v
       ++ more_members level ps
       ++ wide (newline_indent (pred level)) ++ wlit "}" ++ rest)
  = Some ((k, v) :: ps, rest).
Proof.
  induction ps as [|[k' v'] ps IH]; intros k v fuel rest Hv Hps Hfuel;
    (destruct fuel as [|[|fuel]]; [simpl in Hfuel; lia | simpl in Hfuel; lia|]);
    rewrite parse_pairs_unfold, scanstring_escape;
    change (wlit ": " ++ ?x) with (chr ":" :: chr space :: x);
    rewrite (skip_ws_stop (chr ":")) by reflexivity;
    rewrite N.eqb_refl, skip_ws_space, skip_ws_scalar by assumption.
  - rewrite parse_value_scalar; [|assumption|].
    2:{ unfold more_members. cbn [flat_map app newline_indent wide map].
        eexists. right. reflexivity. }
    unfold more_members. cbn [flat_map app].
    rewrite skip_ws_newline_indent. reflexivity.
  - rewrite parse_value_scalar; [|assumption|].
    2:{ unfold more_members. cbn [flat_map app].
        change (wlit "," ++ ?x) with (chr "," :: x).
        eexists. left. rewrite <- app_comm_cons. reflexivity. }
    unfold more_members. cbn [flat_map]. fold (more_members level ps).
    change (wlit "," ++ ?x) with (chr "," :: x). rewrite <- !app_assoc.
    cbn [app skip_ws]. change (is_json_ws (chr ",")) with false. cbv iota.
    change ((chr "," =? chr "}")%N) with false.
    rewrite N.eqb_refl. cbv iota. rewrite <- !app_assoc.
    rewrite skip_ws_newline_indent. unfold member_text, encode_text.
    cbn [fst snd app skip_ws]. change (is_json_ws (chr quote)) with false.
    cbv iota. rewrite N.eqb_refl. rewrite <- !app_assoc. cbn [app].
    inversion Hps as [|? ? Hv' Hps']; subst.
    rewrite (IH k' v' (S fuel) rest Hv' Hps') by (simpl in *; lia).
    reflexivity.
Qed.

Lemma flat_map_sep_map {A} (sep : text) (f : A -> text) (l : list A) :
  flat_map (fun x => sep ++ x) (map f l) = flat_map (fun a => sep ++ f a) l.
Proof.
  induction l as [|a l IH]; simpl; [reflexivity | now rewrite IH].
Qed.

Lemma encode_dict level k v ps :
  encode_value level (VDict ((k, v) :: ps))
  = chr "{" :: wide (newline_indent (S level))
      ++ chr quote :: flat_map escape_code k ++ chr quote :: wlit ": "
      ++ encode_value (S level) v
      ++ more_members (S level) ps
      ++ wide (newline_indent level) ++ wlit "}".
Proof.
  cbn [encode_value map]. rewrite join_text_cons.
  rewrite (flat_map_sep_map _
             (fun p => encode_text (fst p) ++ wlit ": "
                       ++ encode_value (S level) (snd p))).
  assert (E : flat_map
                (fun a : text * value =>
                   (wlit "," ++ wide (newline_indent (S level))) ++
                   encode_text (fst a) ++ wlit ": "
                   ++ encode_value (S level) (snd a))
                ps
              = more_members (S level) ps).
  { apply flat_map_ext. intros a. unfold member_text.
    now rewrite <- app_assoc. }
  rewrite E. unfold encode_text. cbn [fst snd].
  rewrite <- !app_assoc. cbn [app]. rewrite <- !app_assoc. reflexivity.
Qed.

(** An object whose values are strings and integers is read back. *)
Lemma parse_value_dict fuel level k v ps rest :
  scalar v = true ->
  Forall (fun p => scalar (snd p) = true) ps ->
  (List.length ps + 2 <= fuel)%nat ->
  parse_value (S fuel) (encode_value level (VDict ((k, v) :: ps)) ++ rest)
  = Some (VDict (dict_of_pairs ((k, v) :: ps)), rest).
Proof.
  intros Hv Hps Hfuel. rewrite encode_dict.
  cbn [app parse_value]. change ((chr "{" =? chr quote)%N) with false.
  rewrite N.eqb_refl. cbv iota. rewrite <- app_assoc.
  rewrite skip_ws_newline_indent. cbn [app].
  rewrite (skip_ws_stop (chr quote)) by reflexivity.
  change ((chr quote =? chr "}")%N) with false. rewrite N.eqb_refl.
  cbv iota. rewrite <- !app_assoc. cbn [app]. rewrite <- !app_assoc.
  pose proof (parse_pairs_scalars (S level) ps k v fuel rest Hv Hps Hfuel) as Hp.
  cbn [pred] in Hp. now rewrite Hp.
Qed.

Lemma parse_value_recipe fuel r rest :
  (8 <= fuel)%nat ->
  parse_value (S fuel) (encode_value 1 (recipe_value r) ++ rest)
  = Some (recipe_value r, rest).
Proof.
  intros Hfuel. unfold recipe_value.
  rewrite parse_value_dict; [reflexivity | reflexivity | | simpl; lia].
  repeat constructor.
Qed.

Lemma skip_ws_recipe r rest :
  skip_ws (encode_value 1 (recipe_value r) ++ rest)
  = encode_value 1 (recipe_value r) ++ rest.
Proof. unfold recipe_value. now rewrite encode_dict. Qed.

(** *** The list of records *)

Lemma parse_items_unfold fuel s :
  parse_items (S fuel) s
  = match parse_value fuel s with
    | Some (v, r) =>
        match skip_ws r with
        | [] => None
        | d :: r1 =>
            if (d =? chr "]")%N then Some ([v], r1)
            else if (d =? chr ",")%N then
              match parse_items fuel (skip_ws r1) with
              | Some (vs, r2) => Some (v :: vs, r2)
              | None => None
              end
            else None
        end
    | None => None
    end.
Proof. reflexivity. Qed.

Lemma parse_items_recipes rs : forall r fuel rest,
  (List.length rs + 10 <= fuel)%nat ->
  parse_items fuel
    (encode_value 1 (recipe_value r) ++ more_records rs
       ++ wide (newline_indent 0) ++ wlit "]" ++ rest)
  = Some (map recipe_value (r :: rs), rest).
Proof.
  induction rs as [|r' rs IH]; intros r fuel rest Hfuel;
    (destruct fuel as [|[|fuel]]; [simpl in Hfuel; lia | simpl in Hfuel; lia|]);
    rewrite parse_items_unfold, parse_value_recipe by (simpl in Hfuel; lia).
  - reflexivity.
  - unfold more_records. cbn [flat_map]. fold (more_records rs).
    change (wlit "," ++ ?x) with (chr "," :: x). rewrite <- !app_assoc.
    cbn [app]. rewrite (skip_ws_stop (chr ",")) by reflexivity.
    change ((chr "," =? chr "]")%N) with false.
    rewrite N.eqb_refl. cbv iota. rewrite <- !app_assoc.
    rewrite skip_ws_newline_indent, skip_ws_recipe.
    rewrite (IH r' (S fuel) rest) by (simpl in *; lia). reflexivity.
Qed.

Lemma dumped_cons r rs :
  dumped (r :: rs)
  = chr "[" :: wide (newline_indent 1)
      ++ encode_value 1 (recipe_value r) ++ more_records rs
      ++ wide (newline_indent 0) ++ wlit "]" ++ [].
Proof.
  unfold dumped. cbn [map encode_value]. rewrite join_text_cons, map_map.
  rewrite (flat_map_sep_map _ (fun r => encode_value 1 (recipe_value r))).
  assert (E : flat_map
                (fun a => (wlit "," ++ wide (newline_indent 1))
                          ++ encode_value 1 (recipe_value a))
                rs
              = more_records rs).
  { apply flat_map_ext. intros a. now rewrite <- app_assoc. }
  rewrite E, <- !app_assoc, app_nil_r. reflexivity.
Qed.

Lemma more_records_length rs :
  (List.length rs <= List.length (more_records rs))%nat.
Proof.
  induction rs as [|r rs IH]; [apply Nat.le_refl|].
  unfold more_records in *. cbn [flat_map]. rewrite !length_app.
  change (List.length (wlit ",")) with 1%nat. cbn [List.length]. lia.
Qed.

Lemma recipe_text_length r :
  (6 <= List.length (encode_value 1 (recipe_value r)))%nat.
Proof.
  unfold recipe_value. rewrite encode_dict. cbn [List.length].
  rewrite length_app.
  change (List.length (wide (newline_indent 2))) with 5%nat. lia.
Qed.

Lemma dumped_length r rs :
  (List.length rs + 11 <= List.length (dumped (r :: rs)))%nat.
Proof.
  rewrite dumped_cons. cbn [List.length]. rewrite !length_app.
  pose proof (more_records_length rs). pose proof (recipe_text_length r).
  change (List.length (wide (newline_indent 1))) with 3%nat.
  change (List.length (wide (newline_indent 0))) with 1%nat.
  change (List.length (wlit "]")) with 1%nat. lia.
Qed.

(** [json.loads] of the text dumped for a list of records gives the
    list of their dictionaries. *)
Lemma loads_dumped recs :
  loads (dumped recs) = Some (VList (map recipe_value recs)).
Proof.
  destruct recs as [|r rs]; [reflexivity|].
  unfold loads. pose proof (dumped_length r rs) as Hlen.
  destruct (List.length (dumped (r :: rs))) as [|fuel]; [lia|].
  rewrite dumped_cons.
  rewrite (skip_ws_stop (chr "[")) by reflexivity.
  cbn [parse_value]. change ((chr "[" =? chr quote)%N) with false.
  change ((chr "[" =? chr "{")%N) with false.
  rewrite N.eqb_refl. cbv iota.
  rewrite skip_ws_newline_indent, skip_ws_recipe.
  pose proof (parse_items_recipes rs r fuel [] ltac:(lia)) as Hp.
  remember (encode_value 1 (recipe_value r) ++ more_records rs
              ++ wide (newline_indent 0) ++ wlit "]" ++ []) as txt eqn:Ht.
  assert (Hhead : exists tail, txt = chr "{" :: tail).
  { subst txt. unfold recipe_value. rewrite encode_dict. eexists.
    reflexivity. }
  destruct Hhead as [tail Htail]. rewrite Htail in *.
  change ((chr "{" =? chr "]")%N) with false. cbv iota.
  now rewrite Hp.
Qed.

Lemma recipe_of_recipe_value r : recipe_of_value (recipe_value r) = Some r.
Proof. now destruct r. Qed.

Lemma all_some_recipes recs :
  all_some (map recipe_of_value (map recipe_value recs)) = Some recs.
Proof.
  induction recs as [|r rs IH]; [reflexivity|].
  cbn [map all_some]. rewrite recipe_of_recipe_value. cbn [all_some].
  now rewrite IH.
Qed.

(** *** What can be written *)

Lemma scalar_value_chr a : scalar_value (chr a) = true.
Proof.
  pose proof (chr_below a) as H. unfold scalar_value, is_surrogate.
  replace (55296 <=? chr a)%N with false by (symmetry; apply N.leb_gt; lia).
  replace (chr a <? 1114112)%N with true by (symmetry; apply N.ltb_lt; lia).
  reflexivity.
Qed.

Lemma encodable_wide s : encodable_text (wide s) = true.
Proof.
  induction s as [|c s IH]; [reflexivity|].
  cbn [wide map encodable_text forallb]. now rewrite scalar_value_chr.
Qed.

Lemma encodable_escape_code c :
  encodable_text (escape_code c) = scalar_value c.
Proof.
  unfold escape_code. destruct (N.ltb_spec c 256) as [H|H].
  - rewrite encodable_wide. rewrite <- (N_ascii_embedding c H).
    symmetry. apply scalar_value_chr.
  - cbn [encodable_text forallb]. apply andb_true_r.
Qed.

Lemma encodable_escape s :
  encodable_text (flat_map escape_code s) = encodable_text s.
Proof.
  induction s as [|c s IH]; [reflexivity|].
  cbn [flat_map]. rewrite encodable_text_app, encodable_escape_code, IH.
  reflexivity.
Qed.

Lemma encodable_encode_text s :
  encodable_text (encode_text s) = encodable_text s.
Proof.
  unfold encode_text.
  change (chr quote :: ?x) with (wide [quote] ++ x).
  change [chr quote] with (wide [quote]).
  now rewrite !encodable_text_app, !encodable_wide, encodable_escape,
    andb_true_r.
Qed.

Lemma encodable_recipe_text r :
  encodable_text (encode_value 1 (recipe_value r)) = encodable_recipe r.
Proof.
  unfold recipe_value, encodable_recipe.
  cbn [encode_value map join_text fst snd]. unfold wlit.
  rewrite !encodable_text_app, !encodable_encode_text, !encodable_wide.
  cbn [andb]. rewrite !andb_true_r. now rewrite !andb_assoc.
Qed.

Lemma encodable_more_records rs :
  encodable_text (more_records rs) = encodable rs.
Proof.
  induction rs as [|r rs IH]; [reflexivity|].
  unfold more_records in *. cbn [flat_map encodable forallb].
  unfold wlit at 1.
  rewrite !encodable_text_app, !encodable_wide, encodable_recipe_text, IH.
  reflexivity.
Qed.

(** The dumped text can be written exactly when every string of every
    record can. *)
Lemma encodable_dumped recs : encodable_text (dumped recs) = encodable recs.
Proof.
  destruct recs as [|r rs]; [reflexivity|].
  rewrite dumped_cons.
  change (chr "[" :: ?x) with (wide (lit "[") ++ x). unfold wlit.
  rewrite !encodable_text_app, !encodable_wide, encodable_recipe_text,
    encodable_more_records.
  cbn [encodable forallb andb encodable_text]. now rewrite !andb_true_r.
Qed.

(** *** The two encoders agree on Latin-1 *)


Example index_text_empty : index_text [] = lit "[]".
Proof. reflexivity. Qed.

Lemma flat_map_wide {A} (f : A -> str) (l : list A) :
  wide (flat_map f l) = flat_map (fun a => wide (f a)) l.
Proof.
  induction l as [|a l IH]; [reflexivity|].
  cbn [flat_map]. now rewrite wide_app, IH.
Qed.

Lemma encode_text_wide s : encode_text (wide s) = wide (encode_str s).
Proof.
  unfold encode_text, encode_str, escape.
  cbn [wide map]. fold (wide (flat_map escape_char s ++ [quote])).
  rewrite wide_app, flat_map_wide. f_equal. f_equal.
  unfold wide at 1. rewrite flat_map_concat_map, map_map.
  rewrite <- flat_map_concat_map. apply flat_map_ext.
  intros a. apply escape_code_chr.
Qed.

Lemma join_wide sep ws :
  wide (join sep ws) = join_text (wide sep) (map wide ws).
Proof.
  induction ws as [|w ws IH]; [reflexivity|].
  destruct ws as [|x ws]; [reflexivity|].
  change (join sep (w :: x :: ws)) with (w ++ sep ++ join sep (x :: ws)).
  rewrite !wide_app, IH. reflexivity.
Qed.

Lemma encode_recipe_widen r :
  encode_value 1 (recipe_value (widen r)) = wide (encode 1 (recipe_json r)).
Proof.
  unfold recipe_value, recipe_json, widen.
  cbn [encode_value encode map join_text join fst snd
       wide_id wide_filename wide_file_path wide_type wide_content
       wide_preview wide_size].
  unfold wlit. rewrite !wide_app, !encode_text_wide. reflexivity.
Qed.

(** On records of the Latin-1 model, the text dumped is the text of
    [index_text]. *)
Lemma dumped_widen recs : dumped (map widen recs) = wide (index_text recs).
Proof.
  destruct recs as [|r rs]; [reflexivity|].
  unfold dumped, index_text, dumps.
  cbn [map encode_value encode]. unfold wlit.
  rewrite !wide_app, join_wide, wide_app. do 2 f_equal.
  f_equal.
  change (encode_value 1 (recipe_value (widen r))
            :: map (encode_value 1) (map recipe_value (map widen rs)))
    with (map (encode_value 1) (map recipe_value (map widen (r :: rs)))).
  change (encode 1 (recipe_json r) :: map (encode 1) (map recipe_json rs))
    with (map (encode 1) (map recipe_json (r :: rs))).
  rewrite !map_map. f_equal. apply map_ext. intros a.
  apply encode_recipe_widen.
Qed.

Lemma encodable_widen recs : encodable (map widen recs) = true.
Proof.
  induction recs as [|r rs IH]; [reflexivity|].
  cbn [map encodable forallb]. fold (encodable (map widen rs)).
  rewrite IH. unfold encodable_recipe, widen. cbn.
  now rewrite !encodable_wide.
Qed.

(** *** The round trip *)

Lemma read_index_written recs file :
  write_index_file recs = inr file -> read_index file = Some recs.
Proof.
  unfold write_index_file, write_text, read_index.
  destruct (utf8_encode (dumped recs)) as [bs|] eqn:E; [|discriminate].
  intros [= <-]. rewrite (utf8_round_trip _ _ E), loads_dumped.
  apply all_some_recipes.
Qed.

Lemma write_index_file_outcome recs :
  if encodable recs
  then exists file, write_index_file recs = inr file
  else write_index_file recs = inl UnicodeEncodeError.
Proof.
  unfold write_index_file, write_text.
  rewrite <- encodable_dumped.
  destruct (encodable_text (dumped recs)) eqn:E.
  - apply utf8_encode_encodable in E as [bs ->]. eauto.
  - destruct (utf8_encode (dumped recs)) as [bs|] eqn:Hbs; [|reflexivity].
    assert (encodable_text (dumped recs) = true)
      by (apply utf8_encode_encodable; eauto). congruence.
Qed.

(** C8, as the code has it: a list of records whose strings can all be
    encoded (no lone surrogate) is written to the index file in full,
    and decoding the file, parsing it and reading the records gives the
    same list back, every field of every record and their order
    included.  A list with a string that cannot be encoded makes the
    dump raise, so that no complete index is on disk.  The records of
    the Latin-1 model are all of the first kind, and what is dumped for
    them is the text of [index_text]. *)
Theorem index_round_trip :
  (forall recs : list wide_recipe,
     encodable recs = true ->
     exists file, write_index_file recs = inr file /\
       read_index file = Some recs) /\
  (forall recs : list wide_recipe,
     encodable recs = false ->
     write_index_file recs = inl UnicodeEncodeError) /\
  (forall recs file read,
     write_index_file recs = inr file -> read_index file = Some read ->
     map wide_id read = map wide_id recs /\
     map wide_filename read = map wide_filename recs /\
     map wide_file_path read = map wide_file_path recs /\
     map wide_type read = map wide_type recs /\
     map wide_content read = map wide_content recs /\
     map wide_preview read = map wide_preview recs /\
     map wide_size read = map wide_size recs) /\
  (forall recs : list recipe,
     encodable (map widen recs) = true /\
     dumped (map widen recs) = wide (index_text recs)).
Proof.
  split; [|split; [|split]].
  - intros recs H. pose proof (write_index_file_outcome recs) as Hw.
    rewrite H in Hw. destruct Hw as [file Hfile]. exists file.
    split; [exact Hfile | now apply read_index_written].
  - intros recs H. pose proof (write_index_file_outcome recs) as Hw.
    now rewrite H in Hw.
  - intros recs file read Hw Hr.
    rewrite (read_index_written recs file Hw) in Hr. injection Hr as <-.
    now repeat split.
  - intros recs. split; [apply encodable_widen | apply dumped_widen].
Qed.

(** C8 fails as stated: the record of a file whose name holds a byte
    that is not UTF-8 carries a lone surrogate, and the dump of a list
    with this record raises [UnicodeEncodeError]; the index file is not
    written in full and there is nothing to read the records from. *)
Lemma surrogate_name_breaks :
  encodable [undecodable_name] = false /\
  write_index_file [undecodable_name] = inl UnicodeEncodeError /\
  (forall file, write_index_file [undecodable_name] <> inr file).
Proof.
  split; [reflexivity|]. split; [reflexivity|]. intros file. discriminate.
Qed.

(** A record with quotes, control characters, a letter outside Latin-1
    and one outside the basic plane, written and read back. *)
Example far_recipe_round_trip :
  match write_index_file [far_recipe] with
  | inr file => read_index file
  | inl _ => None
  end = Some [far_recipe].
Proof. vm_compute. reflexivity. Qed.

(* ================================================================== *)
(** * Part III: further properties of the code *)
(* ================================================================== *)

(** ** The shape of every preview *)

Lemma collapsed_spaces s c :
  collapsed s = true -> In c s -> is_space c = true -> c = space.
Proof.
  induction s as [|x rest IH]; intros H Hin Hc; [destruct Hin|].
  simpl in H. apply andb_prop in H as [Hx Hrest].
  destruct Hin as [->|Hin]; [|now apply IH].
  rewrite Hc in Hx. simpl in Hx. apply andb_prop in Hx as [Hx _].
  now apply eqb_space_true.
Qed.

Lemma collapsed_prefix a b :
  collapsed (a ++ b) = true ->
  (a = [] \/ exists front x, a = front ++ [x] /\ is_space x = false) ->
  collapsed a = true.
Proof.
  induction a as [|c a IH]; intros H Hlast; [reflexivity|].
  change (collapsed ((c :: a) ++ b))
    with ((negb (is_space c)
           || (Ascii.eqb c space
               && match a ++ b with
                  | [] => false | d :: _ => negb (is_space d) end))
          && collapsed (a ++ b)) in H.
  apply andb_prop in H as [Hc Hrest].
  destruct Hlast as [Hnil|(front & x & E & Hx)]; [discriminate|].
  destruct a as [|d a'].
  - destruct front as [|? [|? ?]]; try discriminate.
    injection E as ->. simpl. now rewrite Hx.
  - change (collapsed (c :: d :: a'))
      with ((negb (is_space c)
             || (Ascii.eqb c space && negb (is_space d)))
            && collapsed (d :: a')).
    apply andb_true_intro. split; [exact Hc|].
    apply IH; [exact Hrest|]. right.
    destruct front as [|y front']; [discriminate|].
    injection E as -> E. eauto.
Qed.

Lemma collapsed_app a b :
  collapsed a = true -> collapsed b = true -> starts_with_word b = true ->
  collapsed (a ++ b) = true.
Proof.
  intros Ha Hb Hs. induction a as [|c a IH]; [exact Hb|].
  simpl in Ha. apply andb_prop in Ha as [Hc Hrest].
  change (collapsed ((c :: a) ++ b))
    with ((negb (is_space c)
           || (Ascii.eqb c space
               && match a ++ b with
                  | [] => false | d :: _ => negb (is_space d) end))
          && collapsed (a ++ b)).
  rewrite (IH Hrest), andb_true_r.
  destruct (is_space c); [|reflexivity]. simpl in *.
  apply andb_prop in Hc as [-> Hnext]. simpl.
  destruct a as [|d a']; [discriminate | exact Hnext].
Qed.

Lemma last_or_nil {A} (l : list A) :
  l = [] \/ exists front x, l = front ++ [x].
Proof. induction l using rev_ind; [now left | right; eauto]. Qed.

(** Whatever the limit, a truncated preview is a prefix of the cleaned
    text that does not end with whitespace, followed by the ellipsis. *)
Lemma create_preview_shape text max_length :
  max_length < len (clean text) ->
  exists body rest,
    create_preview text max_length = body ++ ellipsis /\
    clean text = body ++ rest /\
    (body = [] \/ exists front x, body = front ++ [x] /\ is_space x = false).
Proof.
  intros Hlen.
  destruct (slice_to_prefix (clean text) max_length) as [k Hk].
  pose proof (clean_is_cleaned text) as Hc.
  apply andb_prop in Hc as [_ Hcol].
  destruct (rfind space (slice_to (clean text) max_length)) as [i|] eqn:Hr.
  - destruct (rfind_Some _ _ _ Hr) as [Hsplit _].
    assert (Hclean : clean text
                     = firstn i (slice_to (clean text) max_length)
                       ++ space :: (skipn (S i) (slice_to (clean text) max_length)
                                    ++ skipn k (clean text))).
    { rewrite <- (firstn_skipn k (clean text)) at 1. rewrite <- Hk.
      rewrite Hsplit at 1. now rewrite <- app_assoc. }
    eexists _, _. split; [|split; [exact Hclean|]].
    + unfold create_preview. cbv zeta.
      destruct (Z.leb_spec (len (clean text)) max_length); [lia|].
      unfold rsplit1. now rewrite Hr.
    + right. eapply cleaned_before_space. rewrite <- Hclean.
      apply clean_is_cleaned.
  - exists (slice_to (clean text) max_length), (skipn k (clean text)).
    split; [|split].
    + apply create_preview_no_space; [exact Hlen | now apply rfind_None].
    + rewrite Hk. symmetry. apply firstn_skipn.
    + destruct (last_or_nil (slice_to (clean text) max_length))
        as [E|(front & x & E)]; [now left|]. right. exists front, x.
      split; [exact E|].
      destruct (is_space x) eqn:Hx; [|reflexivity]. exfalso.
      assert (Hin : In x (slice_to (clean text) max_length)).
      { rewrite E. apply in_or_app. right. now left. }
      apply (rfind_None _ _ Hr).
      assert (x = space); [|now subst].
      apply (collapsed_spaces (clean text)); try assumption.
      rewrite Hk in Hin. rewrite <- (firstn_skipn k (clean text)).
      apply in_or_app. now left.
Qed.

Lemma prefix_starts_with_word body rest :
  starts_with_word (body ++ rest) = true ->
  (body = [] \/ exists front x, body = front ++ [x] /\ is_space x = false) ->
  starts_with_word body = true.
Proof.
  intros H _. destruct body; [reflexivity | exact H].
Qed.

Lemma create_preview_is_cleaned text max_length :
  is_cleaned (create_preview text max_length) = true.
Proof.
  destruct (Z.leb_spec (len (clean text)) max_length) as [Hle|Hlt].
  - unfold create_preview. cbv zeta.
    destruct (Z.leb_spec (len (clean text)) max_length); [|lia].
    apply clean_is_cleaned.
  - destruct (create_preview_shape text max_length Hlt)
      as (body & rest & -> & Hclean & Hlast).
    pose proof (clean_is_cleaned text) as Hc. rewrite Hclean in Hc.
    apply andb_prop in Hc as [Hst Hcol].
    pose proof (prefix_starts_with_word _ _ Hst Hlast) as Hb.
    pose proof (collapsed_prefix _ _ Hcol Hlast) as Hcb.
    unfold is_cleaned. apply andb_true_intro. split.
    + destruct body; [reflexivity | exact Hb].
    + now apply collapsed_app.
Qed.

(** X1: whatever the text and the limit, the preview is itself collapsed
    and trimmed: it has no whitespace but single spaces strictly inside
    it, so cleaning it again changes nothing. *)
Theorem create_preview_cleaned text max_length :
  is_cleaned (create_preview text max_length) = true /\
  clean (create_preview text max_length) = create_preview text max_length.
Proof.
  pose proof (create_preview_is_cleaned text max_length) as H.
  split; [exact H | now apply clean_cleaned].
Qed.

(** X2: the preview never holds text that is not in the source: it is
    the cleaned text itself, or a prefix of the cleaned text followed by
    the ellipsis; and for a limit that is not negative the truncated
    form drops at least one character of the cleaned text. *)
Theorem create_preview_prefix text max_length :
  create_preview text max_length = clean text \/
  exists body rest,
    create_preview text max_length = body ++ ellipsis /\
    clean text = body ++ rest /\
    (0 <= max_length -> rest <> []).
Proof.
  destruct (Z.leb_spec (len (clean text)) max_length) as [Hle|Hlt].
  - left. unfold create_preview. cbv zeta.
    now destruct (Z.leb_spec (len (clean text)) max_length); [|lia].
  - right.
    destruct (create_preview_shape text max_length Hlt)
      as (body & rest & Hp & Hclean & _).
    exists body, rest. repeat split; try assumption.
    intros Hm ->. rewrite app_nil_r in Hclean.
    assert (Hb : len body <= max_length).
    { unfold create_preview in Hp. cbv zeta in Hp.
      destruct (Z.leb_spec (len (clean text)) max_length); [lia|].
      apply app_inv_tail in Hp. rewrite <- Hp.
      pose proof (rsplit1_head_length (slice_to (clean text) max_length)).
      pose proof (slice_to_length (clean text) max_length Hm). lia. }
    rewrite Hclean in Hlt. lia.
Qed.

Lemma create_preview_len_bound text max_length :
  0 <= max_length ->
  len (create_preview text max_length) <= max_length + 3.
Proof.
  intros Hm. unfold create_preview. cbv zeta.
  destruct (Z.leb_spec (len (clean text)) max_length); [lia|].
  pose proof (rsplit1_head_length (slice_to (clean text) max_length)).
  pose proof (slice_to_length (clean text) max_length Hm).
  unfold len in *. rewrite length_app.
  change (List.length ellipsis) with 3%nat. lia.
Qed.

(** X3: for a limit that is not negative the whole preview, ellipsis
    included, is at most three characters longer than the limit. *)
Theorem create_preview_length text max_length :
  0 <= max_length ->
  len (create_preview text max_length) <= max_length + 3.
Proof. apply create_preview_len_bound. Qed.

Lemma create_preview_length_witness :
  0 <= 12 /\ len (create_preview (lit "Mix flour and water") 12) <= 12 + 3.
Proof.
  split; [lia|].
  apply (create_preview_length (lit "Mix flour and water") 12). lia.
Defined.

(** X4: the preview depends on the text only through its words: cleaning
    keeps the words and their order, cleaning twice is cleaning once,
    and two texts with the same words have the same preview. *)
Theorem create_preview_words text other max_length :
  words (clean text) = words text /\
  clean (clean text) = clean text /\
  create_preview (clean text) max_length = create_preview text max_length /\
  (words text = words other ->
   create_preview text max_length = create_preview other max_length).
Proof.
  assert (Hidem : clean (clean text) = clean text)
    by apply clean_cleaned, clean_is_cleaned.
  split; [apply words_clean|]. split; [exact Hidem|]. split.
  - unfold create_preview. cbv zeta. now rewrite Hidem.
  - intros Hw. unfold create_preview. cbv zeta.
    rewrite !clean_collapse_and_trim. unfold collapse_and_trim.
    now rewrite Hw.
Qed.

Lemma words_all_space s : forallb is_space s = true -> words s = [].
Proof.
  unfold words. induction s as [|c rest IH]; [reflexivity|]. simpl.
  intros H. apply andb_prop in H as [-> H]. now apply IH.
Qed.

Lemma clean_blank text : forallb is_space text = true -> clean text = [].
Proof.
  intros H. rewrite clean_collapse_and_trim. unfold collapse_and_trim.
  now rewrite words_all_space.
Qed.

Lemma create_preview_of_blank text max_length :
  forallb is_space text = true ->
  create_preview text max_length
  = if 0 <=? max_length then [] else ellipsis.
Proof.
  intros H. unfold create_preview. cbv zeta. rewrite (clean_blank text H).
  change (len []) with 0. destruct (0 <=? max_length); [reflexivity|].
  unfold slice_to. destruct (max_length <? 0); now rewrite firstn_nil.
Qed.

(** X5: a text that is empty or made of whitespace only has an empty
    preview for every limit that is not negative (and the bare ellipsis
    for a negative one). *)
Theorem create_preview_blank text max_length :
  forallb is_space text = true ->
  clean text = [] /\
  create_preview text max_length
  = if 0 <=? max_length then [] else ellipsis.
Proof.
  intros H. split; [now apply clean_blank | now apply create_preview_of_blank].
Qed.

Lemma create_preview_blank_witness :
  forallb is_space [space; newline; space] = true /\
  clean [space; newline; space] = [] /\
  create_preview [space; newline; space] 200
  = if 0 <=? 200 then [] else ellipsis.
Proof.
  split; [reflexivity|].
  apply (create_preview_blank [space; newline; space] 200). reflexivity.
Defined.

(** ** The extractors *)





(** ** The records of a written index *)

Lemma written_In recipes_dir output_dir output_file w recs r :
  written_index (events (index_recipes recipes_dir output_dir output_file w))
  = Some recs ->
  In r recs ->
  exists i f, nth_error (recipe_files w) i = Some f /\ copy_ok f = true /\
    r = record_of (1 + Z.of_nat i, f).
Proof.
  intros Hw Hr. apply written_index_collected in Hw. subst recs.
  now apply collected_In.
Qed.

(** X8: in every written index the preview of a record is computed from
    its content with the default limit of 200; it is at most 203
    characters long, is collapsed and trimmed, and is empty when the
    content is empty or blank. *)
Theorem record_preview recipes_dir output_dir output_file w recs r :
  written_index (events (index_recipes recipes_dir output_dir output_file w))
  = Some recs ->
  In r recs ->
  preview r = create_preview (content r) 200 /\
  len (preview r) <= 203 /\
  is_cleaned (preview r) = true /\
  (forallb is_space (content r) = true -> preview r = []).
Proof.
  intros Hw Hr.
  destruct (written_In _ _ _ _ _ _ Hw Hr) as (i & f & _ & _ & ->).
  cbn [record_of preview content]. unfold default_max_length.
  split; [reflexivity|]. split; [|split].
  - apply (create_preview_len_bound _ 200). lia.
  - apply create_preview_is_cleaned.
  - intros H. now rewrite create_preview_of_blank.
Qed.

Lemma record_preview_witness :
  written_index
    (events (index_recipes (lit "in") (lit "out") (lit "index.json")
                           first_copy_fails))
  = Some (collected first_copy_fails) /\
  In (record_of (2, cake_file)) (collected first_copy_fails) /\
  preview (record_of (2, cake_file))
  = create_preview (content (record_of (2, cake_file))) 200 /\
  len (preview (record_of (2, cake_file))) <= 203 /\
  is_cleaned (preview (record_of (2, cake_file))) = true /\
  (forallb is_space (content (record_of (2, cake_file))) = true ->
   preview (record_of (2, cake_file)) = []).
Proof.
  split; [reflexivity|]. split; [now left|].
  apply (record_preview (lit "in") (lit "out") (lit "index.json")
                        first_copy_fails (collected first_copy_fails)
                        (record_of (2, cake_file)));
    [reflexivity | now left].
Defined.

Lemma replace_no_space s : ~ In space (replace space "_"%char s).
Proof.
  unfold replace. rewrite in_map_iff. intros (c & E & _).
  destruct (Ascii.eqb_spec c space); [discriminate | congruence].
Qed.

Lemma replace_length a b s : List.length (replace a b s) = List.length s.
Proof. apply length_map. Qed.

Lemma replace_without a b s : ~ In a s -> replace a b s = s.
Proof.
  unfold replace. induction s as [|c s IH]; intros H; [reflexivity|].
  simpl. rewrite IH by (intros Hin; apply H; now right).
  destruct (Ascii.eqb_spec c a); [|reflexivity].
  exfalso. apply H. now left.
Qed.

(** X9: in every written index the path of a record is fixed by its id
    and file name: it is [recipes/], the id in at least three digits, an
    underscore, and the file name with its spaces replaced; ids start
    at 1 and the path holds no space. *)
Theorem record_file_path recipes_dir output_dir output_file w recs r :
  written_index (events (index_recipes recipes_dir output_dir output_file w))
  = Some recs ->
  In r recs ->
  1 <= id r /\
  file_path r
  = lit "recipes/" ++ format_03d (id r) ++ lit "_"
      ++ replace space "_"%char (filename r) /\
  ~ In space (file_path r).
Proof.
  intros Hw Hr.
  destruct (written_In _ _ _ _ _ _ Hw Hr) as (i & f & _ & _ & ->).
  cbn [record_of id file_path filename].
  split; [lia|]. split.
  - now rewrite safe_filename_shape by lia.
  - unfold safe_filename. intros Hin. apply in_app_or in Hin as [Hin|Hin].
    + simpl in Hin. repeat (destruct Hin as [Hin|Hin]; [discriminate|]).
      exact Hin.
    + now apply replace_no_space in Hin.
Qed.

Lemma record_file_path_witness :
  written_index
    (events (index_recipes (lit "in") (lit "out") (lit "index.json")
                           first_copy_fails))
  = Some (collected first_copy_fails) /\
  In (record_of (2, cake_file)) (collected first_copy_fails) /\
  1 <= id (record_of (2, cake_file)) /\
  file_path (record_of (2, cake_file))
  = lit "recipes/" ++ format_03d (id (record_of (2, cake_file))) ++ lit "_"
      ++ replace space "_"%char (filename (record_of (2, cake_file))) /\
  ~ In space (file_path (record_of (2, cake_file))).
Proof.
  split; [reflexivity|]. split; [now left|].
  apply (record_file_path (lit "in") (lit "out") (lit "index.json")
                          first_copy_fails (collected first_copy_fails)
                          (record_of (2, cake_file)));
    [reflexivity | now left].
Defined.

Lemma sorted_NoDup l : StronglySorted Z.lt l -> NoDup l.
Proof.
  induction 1 as [|a l _ IH Hall]; constructor; [|exact IH].
  intros Hin. rewrite Forall_forall in Hall. specialize (Hall a Hin). lia.
Qed.

Lemma NoDup_map_by {A B C} (f : A -> B) (g : A -> C) (l : list A) :
  (forall x y, In x l -> In y l -> f x = f y -> g x = g y) ->
  NoDup (map g l) -> NoDup (map f l).
Proof.
  induction l as [|a l IH]; intros Hfg Hg; [constructor|].
  simpl in *. inversion Hg as [|? ? Hnot Hrest]; subst. constructor.
  - rewrite in_map_iff. intros (x & E & Hx). apply Hnot.
    rewrite in_map_iff. exists x. split; [|exact Hx].
    apply Hfg; auto.
  - apply IH; [|exact Hrest]. intros x y Hx Hy. apply Hfg; auto.
Qed.

Lemma collected_ids w :
  map id (collected w) = map fst (filter copied (enumerate 1 (recipe_files w))).
Proof. unfold collected. rewrite map_map. apply map_ext, record_of_id. Qed.

(** X10: in every written index no two records share an id, and no two
    records share a path: each record points to a copy of its own. *)
Theorem records_distinct recipes_dir output_dir output_file w recs :
  written_index (events (index_recipes recipes_dir output_dir output_file w))
  = Some recs ->
  NoDup (map id recs) /\ NoDup (map file_path recs).
Proof.
  intros Hw. apply written_index_collected in Hw. subst recs.
  assert (Hid : NoDup (map id (collected w))).
  { rewrite collected_ids. apply sorted_NoDup.
    apply (enumerate_filter_increasing copied (recipe_files w) 1). }
  split; [exact Hid|].
  apply (NoDup_map_by file_path id); [|exact Hid].
  intros x y Hx Hy E.
  apply collected_In in Hx as (i & f & _ & _ & ->).
  apply collected_In in Hy as (j & g & _ & _ & ->).
  cbn [record_of id file_path] in *. apply app_inv_head in E.
  apply safe_filename_index in E; lia.
Qed.

Lemma records_distinct_witness :
  written_index
    (events (index_recipes (lit "in") (lit "out") (lit "index.json")
                           first_copy_fails))
  = Some (collected first_copy_fails) /\
  NoDup (map id (collected first_copy_fails)) /\
  NoDup (map file_path (collected first_copy_fails)).
Proof.
  split; [reflexivity|].
  apply (records_distinct (lit "in") (lit "out") (lit "index.json")
                          first_copy_fails).
  reflexivity.
Defined.

(** ** The effects of a run, in order *)

Lemma copy_targets_app a b :
  copy_targets (a ++ b) = copy_targets a ++ copy_targets b.
Proof.
  induction a as [|e a IH]; [reflexivity|].
  destruct e; simpl; now rewrite IH.
Qed.

Lemma copy_sources_app a b :
  copy_sources (a ++ b) = copy_sources a ++ copy_sources b.
Proof.
  induction a as [|e a IH]; [reflexivity|].
  destruct e; simpl; now rewrite IH.
Qed.

Lemma copy_targets_prints evs : only_prints evs -> copy_targets evs = [].
Proof.
  induction evs as [|e evs IH]; intros H; [reflexivity|].
  destruct (H e (or_introl eq_refl)) as [m ->]. simpl.
  apply IH. intros x Hx. apply H. now right.
Qed.

Lemma copy_sources_prints evs : only_prints evs -> copy_sources evs = [].
Proof.
  induction evs as [|e evs IH]; intros H; [reflexivity|].
  destruct (H e (or_introl eq_refl)) as [m ->]. simpl.
  apply IH. intros x Hx. apply H. now right.
Qed.

Lemma process_files_targets total files : forall idx recipes,
  copy_targets (events (process_files total idx files recipes))
  = map file_path (map record_of (filter copied (enumerate idx files))) /\
  copy_sources (events (process_files total idx files recipes))
  = map path (filter copy_ok files).
Proof.
  induction files as [|f rest IH]; intros idx recipes; [now split|].
  simpl. destruct (process_file_spec total idx f recipes)
    as (prints & warn & Hp & Hw & ->).
  unfold copied at 1. cbn [snd].
  destruct (copy_ok f); rewrite bind_value; cbn [events fst];
    rewrite copy_targets_app, copy_sources_app;
    cbn [copy_targets copy_sources];
    rewrite !copy_targets_app, !copy_sources_app,
      (copy_targets_prints prints Hp), (copy_targets_prints warn Hw),
      (copy_sources_prints prints Hp), (copy_sources_prints warn Hw);
    cbn [copy_targets copy_sources app map].
  - destruct (IH (idx + 1) (recipes ++ [record_of (idx, f)])) as [-> ->].
    now split.
  - destruct (IH (idx + 1) recipes) as [-> ->]. now split.
Qed.

Lemma mkdir_copy_targets w :
  copy_targets (events (mkdir_exist_ok w)) = [] /\
  copy_sources (events (mkdir_exist_ok w)) = [].
Proof.
  destruct (mkdir_exist_ok_events w) as [-> | ->]; now split.
Qed.





(** X12: a run that writes the index writes it once, under the
    requested file name, and only after every copy has been made: all
    the copies come before the write and none after it. *)
Theorem index_written_last recipes_dir output_dir output_file w recs :
  written_index (events (index_recipes recipes_dir output_dir output_file w))
  = Some recs ->
  exists before after,
    events (index_recipes recipes_dir output_dir output_file w)
    = before ++ WriteIndex output_file recs :: after /\
    no_write before /\ no_write after /\
    copy_targets before = map file_path recs /\
    copy_targets after = [].
Proof.
  intros Hw. pose proof Hw as Hrecs.
  apply written_index_collected in Hrecs. subst recs.
  destruct (index_recipes_result recipes_dir output_dir output_file w)
    as (_ & Hiff & _).
  cbv zeta in Hiff. apply Hiff in Hw as (Hroot & Hdir & Hwritable).
  apply mkdir_exist_ok_succeeds in Hdir.
  rewrite index_recipes_cases, Hroot, Hdir, Hwritable.
  eexists _, _. cbn [events fst].
  split; [reflexivity|]. split; [apply before_write_no_write|].
  split; [intros n rs [H|[]]; discriminate|]. split; [|reflexivity].
  rewrite copy_targets_app. cbn [copy_targets].
  destruct (mkdir_copy_targets w) as [-> _].
  destruct (process_files_targets
              (Z.of_nat (List.length (recipe_files w))) (recipe_files w) 1 [])
    as [-> _].
  reflexivity.
Qed.

Lemma index_written_last_witness :
  written_index
    (events (index_recipes (lit "in") (lit "out") (lit "index.json")
                           first_copy_fails))
  = Some (collected first_copy_fails) /\
  exists before after,
    events (index_recipes (lit "in") (lit "out") (lit "index.json")
                          first_copy_fails)
    = before
        ++ WriteIndex (lit "index.json") (collected first_copy_fails)
        :: after /\
    no_write before /\ no_write after /\
    copy_targets before = map file_path (collected first_copy_fails) /\
    copy_targets after = [].
Proof.
  split; [reflexivity|].
  apply (index_written_last (lit "in") (lit "out") (lit "index.json")
                            first_copy_fails).
  reflexivity.
Defined.




(** X14: a run copies nothing but selected files: every copy it makes
    is asked for in the copy directory under the safe name of its
    source, and that source is a listed regular file with a recognised
    extension whose copy succeeds. *)
Theorem copies_only_selected recipes_dir output_dir output_file w
  source dir file_name :
  In (Copy source dir file_name)
     (events (index_recipes recipes_dir output_dir output_file w)) ->
  dir = copy_dir_name /\
  exists i f,
    nth_error (recipe_files w) i = Some f /\
    In f (listing w) /\ is_file f = true /\
    In (lower (suffix (name f))) recognized_extensions /\
    copy_ok f = true /\ source = path f /\
    file_name = safe_filename (1 + Z.of_nat i) f.
Proof.
  rewrite index_recipes_cases.
  destruct (root_exists w); [|intros [H|[]]; discriminate].
  destruct (result (mkdir_exist_ok w)); [intros []|].
  assert (Hloop : In (Copy source dir file_name)
                     (events (process_files
                                (Z.of_nat (List.length (recipe_files w))) 1
                                (recipe_files w) [])) ->
                  dir = copy_dir_name /\
                  exists i f,
                    nth_error (recipe_files w) i = Some f /\
                    In f (listing w) /\ is_file f = true /\
                    In (lower (suffix (name f))) recognized_extensions /\
                    copy_ok f = true /\ source = path f /\
                    file_name = safe_filename (1 + Z.of_nat i) f).
  { intros H. apply process_files_copies in H
      as (idx & f & Hin & Hc & -> & -> & ->).
    apply enumerate_In in Hin as (i & Hi & ->). split; [reflexivity|].
    exists i, f. pose proof (nth_error_In _ _ Hi) as Hf.
    unfold recipe_files in Hf. apply filter_In in Hf as [Hl Hsel].
    unfold is_recipe_file in Hsel. apply andb_prop in Hsel as [Hfile Hext].
    apply str_in_In in Hext. now repeat split. }
  assert (Hbefore : In (Copy source dir file_name)
                       (events (mkdir_exist_ok w)
                          ++ Print (MsgFound (Z.of_nat (List.length (recipe_files w))))
                          :: events (process_files
                                       (Z.of_nat (List.length (recipe_files w))) 1
                                       (recipe_files w) [])) ->
                    In (Copy source dir file_name)
                       (events (process_files
                                  (Z.of_nat (List.length (recipe_files w))) 1
                                  (recipe_files w) []))).
  { intros H. apply in_app_or in H as [H|[H|H]]; [|discriminate|exact H].
    destruct (mkdir_exist_ok_events w) as [E|E]; rewrite E in H;
      [destruct H | destruct H as [H|[]]; discriminate]. }
  destruct (index_writable w); cbn [events fst]; intros H.
  - apply in_app_or in H as [H|[H|[H|[]]]]; try discriminate.
    apply Hloop, Hbefore, H.
  - apply Hloop, Hbefore, H.
Qed.

Lemma copies_only_selected_witness :
  In (Copy (lit "in/cake.txt") (lit "recipes") (lit "002_cake.txt"))
     (events (index_recipes (lit "in") (lit "out") (lit "index.json")
                            first_copy_fails)) /\
  lit "recipes" = copy_dir_name /\
  exists i f,
    nth_error (recipe_files first_copy_fails) i = Some f /\
    In f (listing first_copy_fails) /\ is_file f = true /\
    In (lower (suffix (name f))) recognized_extensions /\
    copy_ok f = true /\ lit "in/cake.txt" = path f /\
    lit "002_cake.txt" = safe_filename (1 + Z.of_nat i) f.
Proof.
  assert (H : In (Copy (lit "in/cake.txt") (lit "recipes") (lit "002_cake.txt"))
                 (events (index_recipes (lit "in") (lit "out")
                                        (lit "index.json") first_copy_fails))).
  { vm_compute. tauto. }
  split; [exact H|].
  apply (copies_only_selected (lit "in") (lit "out") (lit "index.json")
                              first_copy_fails _ _ _ H).
Defined.

(** ** Safe names *)

Lemma format_03d_no_space idx : ~ In space (format_03d idx).
Proof.
  assert (Hd : forall s, Forall (fun c => is_digit c = true) s -> ~ In space s).
  { intros s Hs Hin. rewrite Forall_forall in Hs. now apply Hs in Hin. }
  unfold format_03d. destruct (idx <? 0).
  - intros [H|H]; [discriminate|]. revert H.
    apply Hd, zero_pad_digits, digits_of_digits.
  - apply Hd, zero_pad_digits, digits_of_digits.
Qed.

(** X17: the name a copy is stored under never holds a space, is as
    long as the index, the underscore and the original name together,
    and keeps an original name without spaces as it is. *)
Theorem safe_filename_safe idx f :
  ~ In space (safe_filename idx f) /\
  List.length (safe_filename idx f)
  = (List.length (format_03d idx) + 1 + List.length (name f))%nat /\
  safe_filename idx f
  = format_03d idx ++ lit "_" ++ replace space "_"%char (name f) /\
  (~ In space (name f) ->
   safe_filename idx f = format_03d idx ++ lit "_" ++ name f).
Proof.
  assert (Hshape : safe_filename idx f
                   = format_03d idx ++ lit "_"
                       ++ replace space "_"%char (name f)).
  { unfold safe_filename, replace. rewrite !map_app.
    fold (replace space "_"%char (format_03d idx)).
    now rewrite (replace_without _ _ _ (format_03d_no_space idx)). }
  split; [apply replace_no_space|]. split; [|split; [exact Hshape|]].
  - unfold safe_filename. rewrite replace_length, !length_app. simpl. lia.
  - intros Hn. rewrite Hshape. now rewrite (replace_without _ _ _ Hn).
Qed.

(** ** Extensions *)

Lemma lower_char_dot c :
  Ascii.eqb (lower_char c) "."%char = Ascii.eqb c "."%char.
Proof. destruct c as [[] [] [] [] [] [] [] []]; reflexivity. Qed.

Lemma rfind_dot_lower s : rfind "."%char (lower s) = rfind "."%char s.
Proof.
  induction s as [|c s IH]; [reflexivity|]. simpl. rewrite IH.
  now rewrite lower_char_dot.
Qed.

Lemma suffix_lower n : suffix (lower n) = lower (suffix n).
Proof.
  unfold suffix. rewrite rfind_dot_lower. unfold len, lower.
  rewrite length_map. destruct (rfind "."%char n) as [i|]; [|reflexivity].
  destruct (_ && _); [|reflexivity]. now rewrite skipn_map.
Qed.

Lemma lower_char_idempotent c : lower_char (lower_char c) = lower_char c.
Proof. destruct c as [[] [] [] [] [] [] [] []]; reflexivity. Qed.

Lemma lower_idempotent s : lower (lower s) = lower s.
Proof.
  unfold lower. rewrite map_map. apply map_ext, lower_char_idempotent.
Qed.

Lemma lower_suffix_by_name n n' :
  lower n = lower n' -> lower (suffix n) = lower (suffix n').
Proof. intros H. now rewrite <- !suffix_lower, H. Qed.

(** X18: letter case never matters to discovery.  Two file names that
    differ only in the case of their letters are selected or rejected
    alike and give records of the same type. *)
Theorem selection_ignores_case f n n' idx :
  same_ignoring_case n n' ->
  is_recipe_file (with_name f n) = is_recipe_file (with_name f n') /\
  type (record_of (idx, with_name f n))
  = type (record_of (idx, with_name f n')).
Proof.
  unfold same_ignoring_case. intros H.
  apply lower_suffix_by_name in H. split.
  - unfold is_recipe_file. cbn [name is_file with_name]. now rewrite H.
  - cbn [record_of type]. rewrite !extracted_type.
    cbn [name with_name]. now rewrite H.
Qed.

Lemma selection_ignores_case_witness :
  same_ignoring_case (lit "Soup.TXT") (lit "soup.txt") /\
  is_recipe_file (with_name cake_file (lit "Soup.TXT"))
  = is_recipe_file (with_name cake_file (lit "soup.txt")) /\
  type (record_of (1, with_name cake_file (lit "Soup.TXT")))
  = type (record_of (1, with_name cake_file (lit "soup.txt"))).
Proof.
  split; [reflexivity|].
  apply (selection_ignores_case cake_file (lit "Soup.TXT") (lit "soup.txt") 1).
  reflexivity.
Defined.

Lemma skipn_firstn_app {A} (l tail : list A) i :
  (i <= List.length l)%nat -> skipn i (firstn i l ++ tail) = tail.
Proof.
  intros H. rewrite skipn_app, length_firstn, Nat.min_l by exact H.
  rewrite Nat.sub_diag. rewrite skipn_all2; [reflexivity|].
  rewrite length_firstn. lia.
Qed.

(** The suffix of a name, when there is one: it starts at the last dot
    of the name, which is neither its first nor its last character. *)
Lemma suffix_nonempty n :
  suffix n <> [] ->
  exists stem e,
    n = stem ++ "."%char :: e /\ suffix n = "."%char :: e /\
    stem <> [] /\ e <> [] /\ ~ In "."%char e.
Proof.
  unfold suffix. destruct (rfind "."%char n) as [i|] eqn:Hr; [|congruence].
  destruct (rfind_Some _ _ _ Hr) as [Hsplit Hnot].
  destruct ((0 <? Z.of_nat i) && (Z.of_nat i <? len n - 1)) eqn:Hi;
    [|congruence].
  intros _. apply andb_prop in Hi as [H0 H1].
  apply Z.ltb_lt in H0, H1. unfold len in H1.
  exists (firstn i n), (skipn (S i) n).
  split; [exact Hsplit|]. split; [|split; [|split; [|exact Hnot]]].
  - rewrite Hsplit at 1. apply skipn_firstn_app. lia.
  - intros E. apply (f_equal (@List.length ascii)) in E.
    rewrite length_firstn in E. simpl in E. lia.
  - intros E. apply (f_equal (@List.length ascii)) in E.
    rewrite length_skipn in E. simpl in E. lia.
Qed.

(** X19: a selected file has a real extension: its name is a non-empty
    stem, a dot, and a non-empty dot-free ending which, lower-cased, is
    one of pdf, html, htm, txt, md.  So a name without a dot, a name
    that is only an extension (as [.txt]), a name ending in a dot, and a
    name whose recognised extension is not the last one (as
    [soup.txt.bak]) are never selected. *)
Theorem selected_has_extension f :
  is_recipe_file f = true ->
  exists stem e,
    name f = stem ++ "."%char :: e /\
    stem <> [] /\ e <> [] /\ ~ In "."%char e /\
    In (lower e) [lit "pdf"; lit "html"; lit "htm"; lit "txt"; lit "md"].
Proof.
  unfold is_recipe_file. intros H. apply andb_prop in H as [_ Hext].
  apply str_in_In in Hext.
  assert (Hne : suffix (name f) <> []).
  { intros E. rewrite E in Hext. simpl in Hext.
    repeat (destruct Hext as [Hext|Hext]; [discriminate|]). exact Hext. }
  destruct (suffix_nonempty _ Hne) as (stem & e & Hn & Hs & Hstem & He & Hdot).
  exists stem, e. repeat split; try assumption.
  rewrite Hs in Hext. cbn [lower map] in Hext. fold (lower e) in Hext.
  change (lower_char "."%char) with "."%char in Hext.
  simpl in Hext |- *.
  repeat (destruct Hext as [Hext|Hext];
          [injection Hext as <-; tauto|]).
  destruct Hext.
Qed.

Lemma selected_has_extension_witness :
  is_recipe_file cake_file = true /\
  exists stem e,
    name cake_file = stem ++ "."%char :: e /\
    stem <> [] /\ e <> [] /\ ~ In "."%char e /\
    In (lower e) [lit "pdf"; lit "html"; lit "htm"; lit "txt"; lit "md"].
Proof.
  split; [reflexivity|].
  apply (selected_has_extension cake_file). reflexivity.
Defined.

(** ** What the loop reports *)








(** ** Characters in the index file *)

Lemma escape_plain_char c : plain_char c = true -> escape_char c = [c].
Proof.
  destruct c as [[] [] [] [] [] [] [] []]; intros H;
    try discriminate H; reflexivity.
Qed.

(** X21: a string without quotes, backslashes and control characters
    is written to the index as it is between two quotes; in particular
    letters above 127 are kept, not escaped. *)
Theorem encode_str_plain s :
  forallb plain_char s = true ->
  encode_str s = quote :: s ++ [quote].
Proof.
  intros H. unfold encode_str, escape. f_equal. f_equal.
  induction s as [|c s IH]; [reflexivity|]. simpl in H.
  apply andb_prop in H as [Hc H]. cbn [flat_map].
  now rewrite (escape_plain_char c Hc), IH.
Qed.

Lemma encode_str_plain_witness :
  forallb plain_char [ "c"%char; "r"%char; "232"%char; "m"%char; "e"%char ] = true /\
  encode_str [ "c"%char; "r"%char; "232"%char; "m"%char; "e"%char ]
  = quote :: [ "c"%char; "r"%char; "232"%char; "m"%char; "e"%char ] ++ [quote].
Proof.
  split; [reflexivity|].
  apply (encode_str_plain [ "c"%char; "r"%char; "232"%char; "m"%char; "e"%char ]).
  reflexivity.
Defined.
